(** * dumpfloppy: disk model, track prober, track reader and IMD writer

    A shallow embedding of [disk.c] and [dumpfloppy.c].  C [int]s are
    modelled as [Z] (cylinders, sector counts and the byte counts of the
    size codes 0 to 7 stay far below 2^31),
    [uint8_t] fields as [Z] kept in [0, 256) by [u8] at each store, arrays
    as lists read and written by index, pointers to heap buffers as
    [option], and the floppy controller as a state-passing interface.
    Accesses that C leaves undefined (an index outside an array, a null
    dereference) are a result of their own, [Undef]; [die] and [die_errno]
    are [Die]. *)

From Stdlib Require Import ZArith Lia String.
From stdpp Require Import base list strings.

Open Scope Z_scope.

(** ** Results of fallible code *)

Inductive outcome (A : Type) : Type :=
| Ret (a : A)          (* normal completion *)
| Die (msg : string)   (* die(), die_errno(): the process exits *)
| Undef.               (* undefined behaviour in C *)
Arguments Ret {A} a.
Arguments Die {A} msg.
Arguments Undef {A}.

Definition bind {A B} (m : outcome A) (k : A → outcome B) : outcome B :=
  match m with
  | Ret a => k a
  | Die msg => Die msg
  | Undef => Undef
  end.

Declare Scope outcome_scope.
Delimit Scope outcome_scope with outcome.
Notation "'let*' x ':=' m 'in' k" := (bind m (fun x => k))
  (at level 10, x pattern, m at level 100, k at level 200) : outcome_scope.
Open Scope outcome_scope.

(** [for (int i = lo; i < hi; i++) s = body(i, s);] *)
Fixpoint for_from {S : Type} (n : nat) (i : Z) (body : Z → S → outcome S)
    (s : S) : outcome S :=
  match n with
  | O => Ret s
  | Datatypes.S n' => let* s' := body i s in for_from n' (i + 1) body s'
  end.

Definition for_loop {S : Type} (lo hi : Z) (body : Z → S → outcome S)
    (s : S) : outcome S :=
  for_from (Z.to_nat (hi - lo)) lo body s.

(** Conversions to [uint8_t] and array cells. *)
Definition u8 (x : Z) : Z := x mod 256.

Definition array_get {A} (a : list A) (i : Z) : outcome A :=
  if decide (0 ≤ i) then
    match a !! Z.to_nat i with
    | Some x => Ret x
    | None => Undef
    end
  else Undef.

Definition array_set {A} (a : list A) (i : Z) (x : A) : outcome (list A) :=
  if decide (0 ≤ i ∧ i < Z.of_nat (length a))
  then Ret (<[Z.to_nat i := x]> a)
  else Undef.

(** ** disk.h

    The header is not among the sources.  Its two capacity macros that
    the code uses as numbers are the fields of a class; the types are
    read off the initialisers and uses in [disk.c]. *)

Class disk_h := { MAX_SECS : Z; MAX_CYLS : Z }.

(** Modelled from the spec: [MAX_HEADS], a macro of the missing [disk.h];
    "a disk holds at most a fixed maximum cylinder count and at most two
    heads". *)
Definition MAX_HEADS : Z := 2.

Record data_mode_t := {
  rate : Z;
  name : string;
  imd_mode : Z;
  is_fm : bool;
}.

Inductive sector_status_t := SECTOR_MISSING | SECTOR_BAD | SECTOR_GOOD.

Record sector_t := {
  status : sector_status_t;
  log_cyl : Z;
  log_head : Z;
  log_sector : Z;
  phys_sector : Z;
  deleted : bool;
  data : option (list Z);      (* None is NULL *)
}.

Inductive track_status_t := TRACK_UNKNOWN | TRACK_GUESSED | TRACK_PROBED.

Record track_t := {
  track_status : track_status_t;       (* [status] in C *)
  data_mode : option data_mode_t;      (* None is NULL *)
  phys_cyl : Z;
  phys_head : Z;
  num_sectors : Z;
  sector_size_code : Z;
  sectors : list sector_t;
  probed : bool;
}.

Record disk_t := {
  comment : option string;
  comment_len : Z;
  num_phys_cyls : Z;
  num_phys_heads : Z;
  cyl_step : Z;
  tracks : list (list track_t);
}.

#[global] Instance sector_status_eq_dec : EqDecision sector_status_t.
Proof. solve_decision. Defined.
#[global] Instance track_status_eq_dec : EqDecision track_status_t.
Proof. solve_decision. Defined.

(** Field updates. *)
Definition set_status (v : sector_status_t) (s : sector_t) : sector_t :=
  {| status := v; log_cyl := log_cyl s; log_head := log_head s;
     log_sector := log_sector s; phys_sector := phys_sector s;
     deleted := deleted s; data := data s |}.
Definition set_data (v : option (list Z)) (s : sector_t) : sector_t :=
  {| status := status s; log_cyl := log_cyl s; log_head := log_head s;
     log_sector := log_sector s; phys_sector := phys_sector s;
     deleted := deleted s; data := v |}.
Definition set_log_addr (c h r : Z) (s : sector_t) : sector_t :=
  {| status := status s; log_cyl := u8 c; log_head := u8 h;
     log_sector := u8 r; phys_sector := phys_sector s;
     deleted := deleted s; data := data s |}.
Definition set_phys_sector (v : Z) (s : sector_t) : sector_t :=
  {| status := status s; log_cyl := log_cyl s; log_head := log_head s;
     log_sector := log_sector s; phys_sector := u8 v;
     deleted := deleted s; data := data s |}.

Definition set_track_status (v : track_status_t) (t : track_t) : track_t :=
  {| track_status := v; data_mode := data_mode t; phys_cyl := phys_cyl t;
     phys_head := phys_head t; num_sectors := num_sectors t;
     sector_size_code := sector_size_code t; sectors := sectors t;
     probed := probed t |}.
Definition set_data_mode (v : option data_mode_t) (t : track_t) : track_t :=
  {| track_status := track_status t; data_mode := v; phys_cyl := phys_cyl t;
     phys_head := phys_head t; num_sectors := num_sectors t;
     sector_size_code := sector_size_code t; sectors := sectors t;
     probed := probed t |}.
Definition set_num_sectors (v : Z) (t : track_t) : track_t :=
  {| track_status := track_status t; data_mode := data_mode t;
     phys_cyl := phys_cyl t; phys_head := phys_head t; num_sectors := v;
     sector_size_code := sector_size_code t; sectors := sectors t;
     probed := probed t |}.
Definition set_sector_size_code (v : Z) (t : track_t) : track_t :=
  {| track_status := track_status t; data_mode := data_mode t;
     phys_cyl := phys_cyl t; phys_head := phys_head t;
     num_sectors := num_sectors t; sector_size_code := v;
     sectors := sectors t; probed := probed t |}.
Definition set_sectors (v : list sector_t) (t : track_t) : track_t :=
  {| track_status := track_status t; data_mode := data_mode t;
     phys_cyl := phys_cyl t; phys_head := phys_head t;
     num_sectors := num_sectors t; sector_size_code := sector_size_code t;
     sectors := v; probed := probed t |}.
Definition set_probed (v : bool) (t : track_t) : track_t :=
  {| track_status := track_status t; data_mode := data_mode t;
     phys_cyl := phys_cyl t; phys_head := phys_head t;
     num_sectors := num_sectors t; sector_size_code := sector_size_code t;
     sectors := sectors t; probed := v |}.

Definition set_num_phys_cyls (v : Z) (d : disk_t) : disk_t :=
  {| comment := comment d; comment_len := comment_len d; num_phys_cyls := v;
     num_phys_heads := num_phys_heads d; cyl_step := cyl_step d;
     tracks := tracks d |}.
Definition set_num_phys_heads (v : Z) (d : disk_t) : disk_t :=
  {| comment := comment d; comment_len := comment_len d;
     num_phys_cyls := num_phys_cyls d; num_phys_heads := v;
     cyl_step := cyl_step d; tracks := tracks d |}.
Definition set_cyl_step (v : Z) (d : disk_t) : disk_t :=
  {| comment := comment d; comment_len := comment_len d;
     num_phys_cyls := num_phys_cyls d; num_phys_heads := num_phys_heads d;
     cyl_step := v; tracks := tracks d |}.
Definition set_tracks (v : list (list track_t)) (d : disk_t) : disk_t :=
  {| comment := comment d; comment_len := comment_len d;
     num_phys_cyls := num_phys_cyls d; num_phys_heads := num_phys_heads d;
     cyl_step := cyl_step d; tracks := v |}.

(** [disk->tracks[cyl][head]] *)
Definition track_at (d : disk_t) (cyl head : Z) : outcome track_t :=
  let* row := array_get (tracks d) cyl in array_get row head.

Definition set_track_at (d : disk_t) (cyl head : Z) (t : track_t)
    : outcome disk_t :=
  let* row := array_get (tracks d) cyl in
  let* row' := array_set row head t in
  let* g := array_set (tracks d) cyl row' in
  Ret (set_tracks g d).

(** ** disk.c *)

Definition sector_bytes (code : Z) : Z := Z.shiftl 128 code.

Definition DATA_MODES : list data_mode_t := [
  (* 5.25in DD/QD and 3.5in DD drives *)
  {| rate := 5; name := "MFM-250k"; imd_mode := 2; is_fm := false |};
  {| rate := 2; name := "FM-250k"; imd_mode := 2; is_fm := true |};
  (* DD media in 5.25in HD drives *)
  {| rate := 4; name := "MFM-300k"; imd_mode := 1; is_fm := false |};
  {| rate := 1; name := "FM-300k"; imd_mode := 1; is_fm := true |};
  (* 3.5in HD, 5.25in HD and 8in drives *)
  {| rate := 3; name := "MFM-500k"; imd_mode := 0; is_fm := false |};
  {| rate := 0; name := "FM-500k"; imd_mode := 0; is_fm := true |};
  (* 3.5in ED drives *)
  {| rate := 6; name := "MFM-1000k"; imd_mode := 3; is_fm := false |}
  (* the terminator { -1, NULL, 0, false } is the end of the list *)
].

Definition EMPTY_SECTOR : sector_t :=
  {| status := SECTOR_MISSING; log_cyl := 0xFF; log_head := 0xFF;
     log_sector := 0xFF; phys_sector := 0xFF; deleted := false;
     data := None |}.

Definition init_sector : sector_t := EMPTY_SECTOR.

Definition free_sector (sector : sector_t) : sector_t :=
  set_data None (set_status SECTOR_MISSING sector).

Section disk_c.
Context `{disk_h}.

(** Members without an initialiser are zero: [probed] is false, and the
    sectors are zeroed until the loop of [init_track] fills them. *)
Definition ZERO_SECTOR : sector_t :=
  {| status := SECTOR_MISSING; log_cyl := 0; log_head := 0;
     log_sector := 0; phys_sector := 0; deleted := false; data := None |}.

Definition EMPTY_TRACK : track_t :=
  {| track_status := TRACK_UNKNOWN; data_mode := None; phys_cyl := -1;
     phys_head := -1; num_sectors := -1; sector_size_code := -1;
     sectors := replicate (Z.to_nat MAX_SECS) ZERO_SECTOR;
     probed := false |}.

Definition init_track (phys_cyl phys_head : Z) : track_t :=
  {| track_status := TRACK_UNKNOWN; data_mode := None;
     phys_cyl := phys_cyl; phys_head := phys_head;
     num_sectors := num_sectors EMPTY_TRACK;
     sector_size_code := sector_size_code EMPTY_TRACK;
     sectors := (λ _, init_sector) <$> sectors EMPTY_TRACK;
     probed := probed EMPTY_TRACK |}.

(** Members without an initialiser are zero: [cyl_step] has none.  The
    grid of tracks is filled by the loops of [init_disk]. *)
Definition EMPTY_DISK : disk_t :=
  {| comment := None; comment_len := -1; num_phys_cyls := 0;
     num_phys_heads := 0; cyl_step := 0; tracks := [] |}.

Definition init_disk : disk_t :=
  set_tracks
    ((λ cyl, (λ head, init_track cyl head) <$> seqZ 0 MAX_HEADS)
       <$> seqZ 0 MAX_CYLS)
    EMPTY_DISK.
End disk_c.

(** The loop of [free_track] visits the whole array. *)
Definition free_track (track : track_t) : track_t :=
  set_sectors (free_sector <$> sectors track)
    (set_num_sectors 0 (set_track_status TRACK_UNKNOWN track)).

Definition free_disk (disk : disk_t) : disk_t :=
  {| comment := None; comment_len := comment_len disk;
     num_phys_cyls := num_phys_cyls disk;
     num_phys_heads := num_phys_heads disk; cyl_step := cyl_step disk;
     tracks := (λ row : list track_t, free_track <$> row) <$> tracks disk |}.

Definition copy_track_layout (src dest : track_t) : outcome track_t :=
  if decide (track_status src = TRACK_UNKNOWN) then Ret dest else
  let dest := free_track dest in
  let dest := set_track_status TRACK_GUESSED dest in
  let dest := set_data_mode (data_mode src) dest in
  let dest := set_num_sectors (num_sectors src) dest in
  let dest := set_sector_size_code (sector_size_code src) dest in
  let cyl_diff := phys_cyl dest - phys_cyl src in
  for_loop 0 (num_sectors src) (λ i dest,
    let* src_sec := array_get (sectors src) i in
    let* dest_sec := array_get (sectors dest) i in
    let dest_sec :=
      set_phys_sector (phys_sector src_sec)
        (set_log_addr (log_cyl src_sec + cyl_diff) (log_head src_sec)
           (log_sector src_sec) dest_sec) in
    let* a := array_set (sectors dest) i dest_sec in
    Ret (set_sectors a dest)) dest.

(** State of the scan loop of [track_scan_sectors]; the two pointers are
    returned as the sectors they point to (their fields are only read, and
    only the id fields, which nothing writes before the reads). *)
Record scan_t := {
  seen : list bool;
  lowest : option sector_t;
  lowest_id : Z;
  highest : option sector_t;
  highest_id : Z;
}.

Section track_scan.
Context `{disk_h}.

Definition scan_step (track : track_t) (i : Z) (st : scan_t)
    : outcome scan_t :=
  let* sector := array_get (sectors track) i in
  let id := log_sector sector in
  let* seen' := array_set (seen st) (log_sector sector) true in
  let st1 :=
    if decide (id < lowest_id st)
    then {| seen := seen'; lowest := Some sector; lowest_id := id;
            highest := highest st; highest_id := highest_id st |}
    else {| seen := seen'; lowest := lowest st; lowest_id := lowest_id st;
            highest := highest st; highest_id := highest_id st |} in
  Ret (if decide (id > highest_id st1)
       then {| seen := seen st1; lowest := lowest st1;
               lowest_id := lowest_id st1;
               highest := Some sector; highest_id := id |}
       else st1).

Definition scan_init : scan_t :=
  {| seen := replicate (Z.to_nat MAX_SECS) false; lowest := None;
     lowest_id := MAX_SECS; highest := None; highest_id := 0 |}.

Definition track_scan_sectors (track : track_t)
    : outcome (option sector_t * option sector_t * bool) :=
  let* st := for_loop 0 (num_sectors track) (scan_step track) scan_init in
  let* contiguous :=
    for_loop (lowest_id st) (highest_id st) (λ i contiguous,
      let* b := array_get (seen st) i in
      Ret (if b then contiguous else false)) true in
  Ret (lowest st, highest st, contiguous).
End track_scan.

Definition same_sector_addr (a b : sector_t) : bool :=
  if decide (log_cyl a ≠ log_cyl b) then false
  else if decide (log_head a ≠ log_head b) then false
  else if decide (log_sector a ≠ log_sector b) then false
  else true.

(** ** The controller transport

    [struct floppy_raw_cmd] of <linux/fd.h>, split into what the program
    sends and what the kernel writes back: the reply bytes and, for a
    read, the bytes transferred to the buffer.  A controller is the
    [ioctl(dev_fd, FDRAWCMD, cmd)] call: it answers a command and moves to
    its next state; [None] is a negative return value. *)

Record floppy_raw_cmd := {
  raw_flags : Z;
  raw_cmd : list Z;            (* cmd[0 .. cmd_count) *)
  raw_rate : Z;
  raw_track : Z;
  raw_length : Z;
}.

Record floppy_raw_reply := {
  reply_count : Z;
  reply : list Z;
  raw_data : list Z;
}.

Class Controller (W : Type) :=
  fdrawcmd : floppy_raw_cmd → W → option floppy_raw_reply * W.

(** <linux/fdreg.h> and <linux/fd.h> *)
Definition FD_RECALIBRATE : Z := 0x07.
Definition FD_READ : Z := 0xE6.
Definition FD_READID : Z := 0xEA.
Definition FD_RAW_READ : Z := 1.
Definition FD_RAW_INTR : Z := 8.
Definition FD_RAW_NEED_SEEK : Z := 0x80.

(** [cmd->reply[i]], an [unsigned char]; the command was zeroed before the
    call. *)
Definition reply_byte (r : floppy_raw_reply) (i : nat) : Z :=
  u8 (default 0 (reply r !! i)).

(** The buffer of [size] bytes after the call: the transferred bytes, and
    zero where the controller wrote nothing. *)
Definition buffer_after (r : floppy_raw_reply) (size : Z) : list Z :=
  take (Z.to_nat size) (raw_data r ++ replicate (Z.to_nat size) 0).

(** [memcpy(dst, buf + off, len)] *)
Definition slice (buf : list Z) (off len : Z) : outcome (list Z) :=
  if decide (0 ≤ off ∧ 0 ≤ len ∧ off + len ≤ Z.of_nat (length buf))
  then Ret (take (Z.to_nat len) (drop (Z.to_nat off) buf))
  else Undef.

(** ** dumpfloppy.c *)

Record args_t := {
  always_probe : bool;
  drive : Z;
  args_tracks : Z;                    (* [tracks] in C *)
  image_filename : option string;
}.

Definition max_tries : nat := 10.

(** What [probe_disk] prints or dies with. *)
Definition msg_unreadable : string :=
  "Cylinder 2 unreadable on either side".
Definition msg_single_sided : string := "Single-sided disk".
Definition msg_separate_sides : string :=
  "Double-sided disk with separate sides".
Definition msg_double_sided : string := "Double-sided disk".
Definition msg_doublestep : string :=
  "Doublestepping required (40T disk in 80T drive)".
Definition msg_80T_in_40T : string :=
  "Can't read this disk (80T disk in 40T drive)".
Definition msg_mismatch : string :=
  "Mismatch between physical and logical cylinders".

Section dumpfloppy_c.
Context `{disk_h} {W : Type} `{Controller W} (args : args_t).

Definition drive_selector (head : Z) : Z :=
  Z.lor (Z.shiftl head 2) (drive args).

Definition apply_data_mode (mode : data_mode_t) (cmd : floppy_raw_cmd)
    : floppy_raw_cmd :=
  {| raw_flags := raw_flags cmd;
     raw_cmd :=
       if is_fm mode
       then match raw_cmd cmd with
            | c0 :: rest => u8 (Z.land c0 (Z.lnot 0x40)) :: rest
            | [] => []
            end
       else raw_cmd cmd;
     raw_rate := rate mode;
     raw_track := raw_track cmd;
     raw_length := raw_length cmd |}.

Definition fd_recalibrate (w : W) : outcome W :=
  let cmd := {| raw_flags := FD_RAW_INTR;
                raw_cmd := [FD_RECALIBRATE; u8 (drive_selector 0)];
                raw_rate := 0; raw_track := 0; raw_length := 0 |} in
  match fdrawcmd cmd w with
  | (None, _) => Die "FD_RECALIBRATE failed"
  | (Some _, w') => Ret w'
  end.

(** If ST0 interrupt code is 00, success. *)
Definition st0_ok (r : floppy_raw_reply) : bool :=
  bool_decide (Z.land (Z.shiftr (reply_byte r 0) 6) 3 = 0).

Definition fd_readid (track : track_t) (w : W)
    : outcome (bool * floppy_raw_reply * W) :=
  match data_mode track with
  | None => Undef
  | Some mode =>
    let cmd := {| raw_flags := Z.lor FD_RAW_INTR FD_RAW_NEED_SEEK;
                  raw_cmd := [FD_READID;
                              u8 (drive_selector (phys_head track))];
                  raw_rate := 0; raw_track := phys_cyl track;
                  raw_length := 0 |} in
    match fdrawcmd (apply_data_mode mode cmd) w with
    | (None, _) => Die "FD_READID failed"
    | (Some r, w') =>
      if decide (reply_count r < 7)
      then Die "FD_READID returned short reply"
      else Ret (st0_ok r, r, w')
    end
  end.

(** Returns the success flag and the contents of [buf] after the call. *)
Definition fd_read (track : track_t) (sector : sector_t) (buf_size : Z)
    (w : W) : outcome (bool * list Z * W) :=
  match data_mode track with
  | None => Undef
  | Some mode =>
    let cmd :=
      {| raw_flags :=
           Z.lor (Z.lor FD_RAW_READ FD_RAW_INTR) FD_RAW_NEED_SEEK;
         raw_cmd := [
           (* 0x80 is the MT (multiple tracks) bit. *)
           u8 (Z.land FD_READ (Z.lnot 0x80));
           u8 (drive_selector (phys_head track));
           log_cyl sector;
           log_head sector;
           log_sector sector;
           u8 (sector_size_code track);
           (* End of track sector number. *)
           0xFF;
           (* Intersector gap. *)
           0x1B;
           (* Bytes in sector, but only if size code is 0. *)
           if decide (sector_size_code track = 0)
           then u8 (sector_bytes (sector_size_code track))
           else 0xFF ];
         raw_rate := 0; raw_track := phys_cyl track;
         raw_length := buf_size |} in
    match fdrawcmd (apply_data_mode mode cmd) w with
    | (None, _) => Die "FD_READID failed"
    | (Some r, w') =>
      if decide (reply_count r < 7)
      then Die "FD_READID returned short reply"
      else Ret (st0_ok r, buffer_after r buf_size, w')
    end
  end.

(** Read a sector ID and append it to the sectors in the track. *)
Definition track_readid (track : track_t) (w : W)
    : outcome (bool * track_t * W) :=
  if decide (num_sectors track >= MAX_SECS)
  then Die "track_readid read too many sectors" else
  let* (ok, r, w) := fd_readid track w in
  if negb ok then Ret (false, track, w) else
  let* sector := array_get (sectors track) (num_sectors track) in
  let sector :=
    set_log_addr (reply_byte r 3) (reply_byte r 4) (reply_byte r 5)
      sector in
  let* a := array_set (sectors track) (num_sectors track) sector in
  let track := set_sectors a track in
  if decide (sector_size_code track ≠ -1
             ∧ sector_size_code track ≠ reply_byte r 6)
  then Die "mixed sector formats within track" else
  let track := set_sector_size_code (reply_byte r 6) track in
  let track := set_num_sectors (num_sectors track + 1) track in
  Ret (true, track, w).

(** The mode loop of [probe_track]: try all the possible modes until
    we can read a sector ID. *)
Fixpoint detect_mode (modes : list data_mode_t) (track : track_t) (w : W)
    : outcome (bool * track_t * W) :=
  match modes with
  | [] => Ret (false, track, w)               (* unknown data mode *)
  | mode :: modes =>
    let track := set_data_mode (Some mode) track in
    let* (ok, track, w) := track_readid track w in
    if ok then Ret (true, track, w) else detect_mode modes track w
  end.

(** The sampling loop of [probe_track], which returns from inside. *)
Fixpoint sample_ids (n : nat) (track : track_t) (w : W)
    : outcome (bool * track_t * W) :=
  match n with
  | O => Ret (true, track, w)
  | S n =>
    let* (ok, track, w) := track_readid track w in
    if negb ok then Ret (false, track, w)     (* readid failed *)
    else sample_ids n track w
  end.

(** Find the lowest-numbered sector: [(end_sec, end_pos)]. *)
Definition find_lowest (track : track_t) : outcome (Z * Z) :=
  for_loop 0 (num_sectors track) (λ i '(end_sec, end_pos),
    let* sector := array_get (sectors track) i in
    let sec := log_sector sector in
    Ret (if decide (sec ≤ end_sec) then (sec, i) else (end_sec, end_pos)))
    (MAX_SECS, -1).

(** Scan backwards until we find it again.  Each step is one test of
    the [while] condition at [start_pos]; [None] is the return from
    inside the loop. *)
Fixpoint scan_back (track : track_t) (end_sec : Z) (start_pos : nat)
    : outcome (option Z) :=
  let* sector := array_get (sectors track) (Z.of_nat start_pos) in
  if decide (log_sector sector ≠ end_sec) then
    match start_pos with
    | O => Ret None                   (* lowest sector only seen once *)
    | S start_pos => scan_back track end_sec start_pos
    end
  else Ret (Some (Z.of_nat start_pos)).

Definition scan_backwards (track : track_t) (end_sec start_pos : Z)
    : outcome (option Z) :=
  if decide (0 ≤ start_pos)
  then scan_back track end_sec (Z.to_nat start_pos)
  else Undef.     (* the first test reads [track->sectors[start_pos]] *)

(** [memmove(&a[0], &a[start], sizeof a[0] * n)] *)
Definition memmove_sectors (a : list sector_t) (start n : Z)
    : list sector_t :=
  take (Z.to_nat n) (drop (Z.to_nat start) a) ++ drop (Z.to_nat n) a.

(** The rotation extraction of [probe_track]: from "Find the
    lowest-numbered sector" to the [memmove].  [None] is the
    [return false]. *)
Definition extract_rotation (track : track_t) : outcome (option track_t) :=
  let* (end_sec, end_pos) := find_lowest track in
  let* found := scan_backwards track end_sec (end_pos - 1) in
  match found with
  | None => Ret None
  | Some start_pos =>
    let track := set_num_sectors (end_pos - start_pos) track in
    Ret (Some (set_sectors
                 (memmove_sectors (sectors track) start_pos
                    (num_sectors track)) track))
  end.

Definition probe_track (track : track_t) (w : W)
    : outcome (bool * track_t * W) :=
  let track := free_track track in
  (* Identify the data mode. *)
  let track := set_num_sectors 0 track in
  let track := set_sector_size_code (-1) track in
  let* (ok, track, w) := detect_mode DATA_MODES track w in
  if negb ok then Ret (false, track, w) else
  (* Identify the sector numbering scheme. *)
  let* (ok, track, w) := sample_ids 30 track w in
  if negb ok then Ret (false, track, w) else
  let* found := extract_rotation track in
  match found with
  | None => Ret (false, track, w)
  | Some track =>
    let* (lowest, highest, contiguous) := track_scan_sectors track in
    (* printf(" %d-%d", lowest->log_sector, highest->log_sector) *)
    if contiguous && negb (bool_decide (is_Some lowest ∧ is_Some highest))
    then Undef
    else Ret (true, set_probed true track, w)
  end.

(** One iteration of the sector loop of [read_track]; the state is the
    track, [all_ok] and the controller.  [whole] is [Some (lowest_id,
    track_data)] when [read_whole_track] is set. *)
Definition read_sector (whole : option (Z * list Z)) (sector_size : Z)
    (i : Z) (st : track_t * bool * W) : outcome (track_t * bool * W) :=
  let '(track, all_ok, w) := st in
  let* sector := array_get (sectors track) i in
  if decide (data sector ≠ None) then Ret st      (* Already got this one. *)
  else
    match whole with
    | Some (lowest_id, track_data) =>
      (* We read this sector as part of the whole track. *)
      let rel_sec := log_sector sector - lowest_id in
      let* buf := slice track_data (sector_size * rel_sec) sector_size in
      let* a := array_set (sectors track) i (set_data (Some buf) sector) in
      Ret (set_sectors a track, all_ok, w)
    | None =>
      (* Read a single sector. *)
      let* (ok, buf, w) := fd_read track sector sector_size w in
      if negb ok then
        (* Failed -- throw it away. *)
        let* a := array_set (sectors track) i (set_data None sector) in
        Ret (set_sectors a track, false, w)
      else
        let* a := array_set (sectors track) i (set_data (Some buf) sector) in
        Ret (set_sectors a track, all_ok, w)
    end.

(** Try to read any sectors in a track that haven't already been read.
    Returns true if everything has been read. *)
Definition read_track (track : track_t) (w : W)
    : outcome (bool * track_t * W) :=
  let* (ok, track, w) :=
    if negb (probed track) then probe_track track w
    else Ret (true, track, w) in
  if negb ok then Ret (false, track, w) else
  let* (lowest_sector, highest_sector, contiguous) :=
    track_scan_sectors track in
  let sector_size := sector_bytes (sector_size_code track) in
  let track_size := sector_size * num_sectors track in
  let* (whole, w) :=
    if contiguous then
      (* Try reading the whole track to start with. *)
      match lowest_sector with
      | None => Undef
      | Some lowest =>
        let* (ok, track_data, w) := fd_read track lowest track_size w in
        if ok then
          match highest_sector with
          | None => Undef             (* printed through the pointer *)
          | Some _ => Ret (Some (log_sector lowest, track_data), w)
          end
        else Ret (None, w)
      end
    else Ret (None, w) in
  (* Get sectors in physical order. *)
  let* (track, all_ok, w) :=
    for_loop 0 (num_sectors track) (read_sector whole sector_size)
      (track, true, w) in
  Ret (all_ok, track, w).

(** The second half of [probe_disk], after the two probes; the printed
    lines are returned with the disk. *)
Definition infer_geometry (disk : disk_t)
    : outcome (disk_t * list string) :=
  let cyl := 2 in
  let* side0 := track_at disk cyl 0 in
  let* sec0 := array_get (sectors side0) 0 in
  let* side1 := track_at disk cyl 1 in
  let* sec1 := array_get (sectors side1) 0 in
  let* (disk, out) :=
    if negb (probed side0 || probed side1)
    then Die msg_unreadable
    else if probed side0 && negb (probed side1)
    then Ret (set_num_phys_heads 1 disk, [msg_single_sided])
    else if decide (log_head sec0 = 0 ∧ log_head sec1 = 0)
    then Ret (disk, [msg_separate_sides])
    else Ret (disk, [msg_double_sided]) in
  if decide (log_cyl sec0 * 2 = phys_cyl side0)
  then Ret (set_cyl_step 2 disk, out ++ [msg_doublestep])
  else if decide (log_cyl sec0 = phys_cyl side0 * 2)
  then Die msg_80T_in_40T
  else if decide (log_cyl sec0 ≠ phys_cyl side0)
  then Ret (disk, out ++ [msg_mismatch])
  else Ret (disk, out).

(** The first half: probe both sides of cylinder 2. *)
Definition probe_sides (disk : disk_t) (w : W) : outcome (disk_t * W) :=
  let cyl := 2 in
  for_loop 0 (num_phys_heads disk) (λ head '(disk, w),
    let* track := track_at disk cyl head in
    let* (_, track, w) := probe_track track w in
    let* disk := set_track_at disk cyl head track in
    Ret (disk, w)) (disk, w).

Definition probe_disk (disk : disk_t) (w : W)
    : outcome (disk_t * list string * W) :=
  let* (disk, w) := probe_sides disk w in
  let* (disk, out) := infer_geometry disk in
  Ret (disk, out, w).
End dumpfloppy_c.

Definition IMD_NEED_CYL_MAP : Z := 0x80.
Definition IMD_NEED_HEAD_MAP : Z := 0x40.
Definition IMD_SDR_UNAVAILABLE : Z := 0x00.
Definition IMD_SDR_NORMAL : Z := 0x01.

(** The first loop of [write_imd_track]: [(flags, sec_map, cyl_map,
    head_map)], the three arrays filled front to back. *)
Definition imd_maps (track : track_t)
    : outcome (Z * list Z * list Z * list Z) :=
  for_loop 0 (num_sectors track) (λ i '(flags, sec_map, cyl_map, head_map),
    let* sector := array_get (sectors track) i in
    let flags :=
      if decide (log_cyl sector ≠ phys_cyl track)
      then Z.lor flags IMD_NEED_CYL_MAP else flags in
    let flags :=
      if decide (log_head sector ≠ phys_head track)
      then Z.lor flags IMD_NEED_HEAD_MAP else flags in
    Ret (flags, sec_map ++ [log_sector sector], cyl_map ++ [log_cyl sector],
         head_map ++ [log_head sector])) (0, [], [], []).

(** The second loop: one sector data record per sector. *)
Definition imd_sector_records (track : track_t) : outcome (list Z) :=
  let sector_size := sector_bytes (sector_size_code track) in
  for_loop 0 (num_sectors track) (λ i image,
    let* sector := array_get (sectors track) i in
    match data sector with
    | None => Ret (image ++ [IMD_SDR_UNAVAILABLE])
    | Some buf =>
      let* bytes := slice buf 0 sector_size in
      Ret (image ++ [IMD_SDR_NORMAL] ++ bytes)
    end) [].

Definition imd_header (track : track_t) (flags : Z) : outcome (list Z) :=
  match data_mode track with
  | None => Undef
  | Some mode =>
    Ret [ u8 (imd_mode mode);
          u8 (phys_cyl track);
          u8 (Z.lor flags (phys_head track));
          u8 (num_sectors track);
          u8 (sector_size_code track) ]
  end.

(** The bytes [write_imd_track] appends to the image. *)
Definition write_imd_track (track : track_t) : outcome (list Z) :=
  let* (flags, sec_map, cyl_map, head_map) := imd_maps track in
  let* header := imd_header track flags in
  let* records := imd_sector_records track in
  Ret (header ++ sec_map
       ++ (if decide (Z.land flags IMD_NEED_CYL_MAP ≠ 0)
           then cyl_map else [])
       ++ (if decide (Z.land flags IMD_NEED_HEAD_MAP ≠ 0)
           then head_map else [])
       ++ records).

(** [banner] is the formatted first line, which depends on the clock. *)
Definition write_imd_header (banner : list Z) : list Z := banner ++ [0x1A].

Section process_floppy.
Context `{disk_h} {W : Type} `{Controller W} (args : args_t).

(** The retry loop of [process_floppy], with [tries] attempts left. *)
Fixpoint read_track_retry (tries : nat) (track : track_t) (w : W)
    : outcome (track_t * W) :=
  match tries with
  | O => Die "Track failed to read after retrying"
  | S tries =>
    let* (ok, track, w) := read_track args track w in
    if ok then Ret (track, w)
    else
      (* Failed; reprobe and try again. *)
      read_track_retry tries (set_probed false track) w
  end.

(** The body of the two loops over [cyl] and [head]. *)
Definition process_track (cyl head : Z)
    (st : disk_t * option (list Z) * W)
    : outcome (disk_t * option (list Z) * W) :=
  let '(disk, image, w) := st in
  let* track := track_at disk cyl head in
  let* track :=
    if always_probe args then Ret track
    else if decide (cyl > 0) then
      (* Try the layout of the previous cyl on the same head. *)
      let* src := track_at disk (cyl - 1) head in
      copy_track_layout src track
    else Ret track in
  let* (track, w) := read_track_retry max_tries track w in
  let* disk := set_track_at disk cyl head track in
  match image with
  | None => Ret (disk, None, w)
  | Some bytes =>
    let* record := write_imd_track track in
    Ret (disk, Some (bytes ++ record), w)
  end.

(** [for (cyl = ...; cyl < disk.num_phys_cyls; cyl += disk.cyl_step)],
    run for at most [fuel] iterations; [None] when it is still running
    after them. *)
Fixpoint cylinder_loop (fuel : nat) (cyl : Z)
    (st : disk_t * option (list Z) * W)
    : outcome (option (disk_t * option (list Z) * W)) :=
  if decide (cyl < num_phys_cyls (st.1.1)) then
    match fuel with
    | O => Ret None
    | S fuel =>
      let* st :=
        for_loop 0 (num_phys_heads (st.1.1)) (process_track cyl) st in
      cylinder_loop fuel (cyl + cyl_step (st.1.1)) st
    end
  else Ret (Some st).

(** The disk [process_floppy] hands to [probe_disk]; [drive_tracks] is
    [drive_params.tracks]. *)
Definition setup_disk (drive_tracks : Z) : disk_t :=
  let disk := init_disk in
  let disk :=
    if decide (args_tracks args = -1)
    then set_num_phys_cyls drive_tracks disk
    else set_num_phys_cyls (args_tracks args) disk in
  set_num_phys_heads 2 disk.

Definition process_floppy (fuel : nat) (drive_tracks : Z)
    (banner : list Z) (w : W)
    : outcome (option (disk_t * option (list Z) * W)) :=
  (* Return to track 0 *)
  let* w := fd_recalibrate args w in
  let* w := fd_recalibrate args w in
  let disk := setup_disk drive_tracks in
  let* (disk, _, w) := probe_disk args disk w in
  let image :=
    match image_filename args with
    | None => None
    | Some _ => Some (write_imd_header banner)
    end in
  cylinder_loop fuel 0 (disk, image, w).
End process_floppy.

(** ** Controllers to run the code against *)

(** A controller that plays a script: each call consumes the next entry;
    it keeps the commands it was sent.  At the end of the script the call
    fails. *)
Record tape := {
  pending : list (option floppy_raw_reply);
  issued : list floppy_raw_cmd;
}.

#[global] Instance scripted : Controller tape := λ cmd w,
  match pending w with
  | [] => (None, {| pending := []; issued := issued w ++ [cmd] |})
  | r :: rest => (r, {| pending := rest; issued := issued w ++ [cmd] |})
  end.

(** A successful reply carrying a sector id, a reply with ST0 = 0x40
    (abnormal termination), and a successful read of [bytes]. *)
Definition id_reply (c h r n : Z) : option floppy_raw_reply :=
  Some {| reply_count := 7; reply := [0; 0; 0; c; h; r; n];
          raw_data := [] |}.
Definition failed_reply : option floppy_raw_reply :=
  Some {| reply_count := 7; reply := [0x40; 0; 0; 0; 0; 0; 0];
          raw_data := [] |}.
Definition data_reply (bytes : list Z) : option floppy_raw_reply :=
  Some {| reply_count := 7; reply := [0; 0; 0; 0; 0; 0; 0];
          raw_data := bytes |}.

(** A medium: the contents recorded under each logical sector id of the
    track under the head.  The controller that serves it answers a read
    addressed at sector [r] for [k] sectors' worth of bytes with the
    contents of [r], [r+1], ... in that order (the order the code relies
    on: "the resulting data will be ordered by logical ID"), and fails
    when one of them is not on the medium.  [multi] tells whether it
    serves transfers of more than one sector at all.  Its state counts
    the commands it was sent. *)
Definition medium_t := Z → option (list Z).

Fixpoint medium_read (m : medium_t) (r : Z) (k : nat) : option (list Z) :=
  match k with
  | O => Some []
  | S k =>
    match m r, medium_read m (r + 1) k with
    | Some bytes, Some rest => Some (bytes ++ rest)
    | _, _ => None
    end
  end.

Definition medium_controller (m : medium_t) (multi : bool)
    : Controller nat := λ cmd w,
  let answer :=
    match raw_cmd cmd with
    | [c0; _; _; _; r; n; _; _; _] =>
      let k := raw_length cmd `div` sector_bytes n in
      if decide (Z.land c0 0x1F = 0x06 ∧ (multi = true ∨ k ≤ 1)) then
        match medium_read m r (Z.to_nat k) with
        | Some bytes => data_reply bytes
        | None => failed_reply
        end
      else failed_reply
    | _ => failed_reply
    end in
  (answer, S w).

(** * Specification vocabulary *)

(** The sector ids of the sample, in arrival order. *)
Definition ids_of (track : track_t) : list Z :=
  log_sector <$> take (Z.to_nat (num_sectors track)) (sectors track).

(** The logical id under position [j] of the sector array. *)
Definition id_at (track : track_t) (j : nat) : option Z :=
  log_sector <$> sectors track !! j.

(** Every id between two observed ids is observed. *)
Definition contiguous_ids (l : list Z) : Prop :=
  ∀ a b id, a ∈ l → b ∈ l → a ≤ id ≤ b → id ∈ l.

(** [m] is the lowest id among the first [n] of [l], and [e] the position
    of its last occurrence there. *)
Record lowest_last (l : list Z) (n : Z) (m e : Z) : Prop := {
  ll_range : 0 ≤ e < n;
  ll_at : l !! Z.to_nat e = Some m;
  ll_min : ∀ x, x ∈ take (Z.to_nat n) l → m ≤ x;
  ll_last : ∀ j, e < j < n → l !! Z.to_nat j ≠ Some m;
}.

(** The lowest id [m] of the sample occurs at position [e] and nowhere
    else. *)
Definition lowest_only_at (track : track_t) (m e : Z) : Prop :=
  0 ≤ e < num_sectors track
  ∧ ids_of track !! Z.to_nat e = Some m
  ∧ (∀ x, x ∈ ids_of track → m ≤ x)
  ∧ (∀ j, 0 ≤ j < num_sectors track → j ≠ e →
       ids_of track !! Z.to_nat j ≠ Some m).

(** [n] ids read off a disk that turns under the head: the rotation
    [rot] repeated, starting [phase] sectors into it. *)
Definition cycle_ids (rot : list Z) (phase n : Z) : list Z :=
  (λ i, default 0
          (rot !! Z.to_nat ((phase + i) `mod` Z.of_nat (length rot))))
    <$> seqZ 0 n.

(** A sample that covers the rotation [rot] at least twice. *)
Record cyclic_sample (rot : list Z) (phase : Z) (track : track_t) : Prop := {
  cs_nonempty : rot ≠ [];
  cs_phase : 0 ≤ phase;
  cs_fits : num_sectors track ≤ Z.of_nat (length (sectors track));
  cs_twice : 2 * Z.of_nat (length rot) ≤ num_sectors track;
  cs_ids : ids_of track = cycle_ids rot phase (num_sectors track);
}.

(** The lowest id [m] of the rotation is at position [k] and occurs once
    per rotation. *)
Definition lowest_once (rot : list Z) (k : nat) (m : Z) : Prop :=
  rot !! k = Some m
  ∧ ∀ j x, rot !! j = Some x → m ≤ x ∧ (x = m → j = k).

(** The rotation as the specification words it, to compare with what
    [extract_rotation] keeps: the positions of the lowest id in the
    sample, and the ids "starting immediately after the earlier
    occurrence" up to the last occurrence. *)
Definition occurrences (m : Z) (l : list Z) : list nat :=
  filter (λ i, l !! i = Some m) (seq 0 (length l)).

Definition rotation_after_earlier (l : list Z) : option (list Z) :=
  let m := foldr Z.min 255 l in
  match reverse (occurrences m l) with
  | e :: s :: _ => Some (take (e - s) (drop (S s) l))
  | _ => None
  end.

(** Which maps [write_imd_track] has to emit. *)
Definition need_cyl_map (track : track_t) : bool :=
  bool_decide (Exists (λ s, log_cyl s ≠ phys_cyl track)
                 (take (Z.to_nat (num_sectors track)) (sectors track))).
Definition need_head_map (track : track_t) : bool :=
  bool_decide (Exists (λ s, log_head s ≠ phys_head track)
                 (take (Z.to_nat (num_sectors track)) (sectors track))).

Definition imd_flags (c h : bool) : Z :=
  Z.lor (if c then IMD_NEED_CYL_MAP else 0)
        (if h then IMD_NEED_HEAD_MAP else 0).

(** Every buffer of the track holds a sector's worth of bytes. *)
Definition buffers_sized (track : track_t) : Prop :=
  Forall (λ s, match data s with
               | Some buf => sector_bytes (sector_size_code track)
                             ≤ Z.of_nat (length buf)
               | None => True
               end)
    (take (Z.to_nat (num_sectors track)) (sectors track)).

(** The reference cylinder after the two probes: both sides and their
    first sectors. *)
Record reference_cylinder (disk : disk_t) (side0 side1 : track_t)
    (sec0 sec1 : sector_t) : Prop := {
  rc_side0 : track_at disk 2 0 = Ret side0;
  rc_sec0 : array_get (sectors side0) 0 = Ret sec0;
  rc_side1 : track_at disk 2 1 = Ret side1;
  rc_sec1 : array_get (sectors side1) 0 = Ret sec1;
  rc_cyl : phys_cyl side0 = 2;
}.

(** Two disks of the same dimensions and stepping. *)
Definition same_shape (d d' : disk_t) : Prop :=
  num_phys_cyls d' = num_phys_cyls d
  ∧ num_phys_heads d' = num_phys_heads d
  ∧ cyl_step d' = cyl_step d.

Definition all_missing (track : track_t) : Prop :=
  Forall (λ s, status s = SECTOR_MISSING) (sectors track).

(** What a read leaves in a sector that had no buffer: the bytes the
    medium holds under its id. *)
Definition fill (m : medium_t) (s : sector_t) : sector_t :=
  match data s with
  | Some _ => s
  | None => set_data (m (log_sector s)) s
  end.

Definition filled (m : medium_t) (track : track_t) (i : nat)
    : list sector_t :=
  (fill m <$> take i (sectors track)) ++ drop i (sectors track).

(** The result of a run, looked at through [f]. *)
Definition on_result {A B} (f : A → B) (m : outcome A) : outcome B :=
  let* a := m in Ret (f a).

(** The buffer of sector [i] of a track. *)
Definition data_at (track : track_t) (i : nat) : option (list Z) :=
  sectors track !! i ≫= data.

Section vocabulary.
Context `{disk_h}.

(** The scan loop of [track_scan_sectors] after the ids [l]. *)
Record scan_inv (l : list Z) (st : scan_t) : Prop := {
  inv_len : length (seen st) = Z.to_nat MAX_SECS;
  inv_seen : ∀ z, 0 ≤ z → seen st !! Z.to_nat z = Some true ↔ z ∈ l;
  inv_lo_le : ∀ x, x ∈ l → lowest_id st ≤ x;
  inv_lo_in : l = [] ∧ lowest_id st = MAX_SECS ∨ lowest_id st ∈ l;
  inv_hi_ge : ∀ x, x ∈ l → x ≤ highest_id st;
  inv_hi_in : highest_id st = 0 ∨ highest_id st ∈ l;
  inv_lowest : match lowest st with
               | Some s => log_sector s = lowest_id st
                           ∧ lowest_id st ∈ l
               | None => l = []
               end;
  inv_highest : match highest st with
                | Some s => log_sector s = highest_id st
                            ∧ highest_id st ∈ l
                | None => highest_id st = 0
                end;
}.

(** A probed track with contiguous ids, all of whose sectors are on
    the medium [m]; [lo] is its lowest id.  Some id is above 0: the
    pointer to the highest sector stays null otherwise, and [read_track]
    prints through it. *)
Record readable (m : medium_t) (track : track_t) (lo : Z) : Prop := {
  rd_probed : probed track = true;
  rd_mode : is_Some (data_mode track);
  rd_count : 0 < num_sectors track ≤ Z.of_nat (length (sectors track));
  rd_code : 0 ≤ sector_size_code track ≤ 7;
  rd_ids : Forall (λ id, 0 ≤ id < MAX_SECS) (ids_of track);
  rd_contiguous : contiguous_ids (ids_of track);
  rd_lowest : lo ∈ ids_of track ∧ Forall (λ x, lo ≤ x) (ids_of track);
  rd_above_zero : Exists (λ x, 0 < x) (ids_of track);
  rd_medium : ∀ id, lo ≤ id < lo + num_sectors track →
    ∃ bytes, m id = Some bytes
      ∧ Z.of_nat (length bytes) = sector_bytes (sector_size_code track);
}.

Context {W : Type} `{Controller W} (args : args_t).

(** The tracks the acquisition core can produce: every operation of
    [disk.c] and [dumpfloppy.c] on a track, from [init_track] on. *)
Inductive core_reaches : track_t → Prop :=
| reach_init cyl head : core_reaches (init_track cyl head)
| reach_free t : core_reaches t → core_reaches (free_track t)
| reach_copy src t t' :
    core_reaches t → copy_track_layout src t = Ret t' → core_reaches t'
| reach_readid t w ok t' w' :
    core_reaches t → track_readid args t w = Ret (ok, t', w') →
    core_reaches t'
| reach_probe t w ok t' w' :
    core_reaches t → probe_track args t w = Ret (ok, t', w') →
    core_reaches t'
| reach_read t w ok t' w' :
    core_reaches t → read_track args t w = Ret (ok, t', w') →
    core_reaches t'
| reach_reprobe t : core_reaches t → core_reaches (set_probed false t)
| reach_retry t w n t' w' :
    core_reaches t → read_track_retry args n t w = Ret (t', w') →
    core_reaches t'.
End vocabulary.

(** * Inputs to run the code on *)

(** A header with room for every 8-bit sector id. *)
Definition roomy : disk_h := {| MAX_SECS := 256; MAX_CYLS := 85 |}.

Definition no_options : args_t :=
  {| always_probe := false; drive := 0; args_tracks := -1;
     image_filename := None |}.

Definition play (script : list (option floppy_raw_reply)) : tape :=
  {| pending := script; issued := [] |}.

Definition id_replies (c h n : Z) (ids : list Z)
    : list (option floppy_raw_reply) :=
  (λ r, id_reply c h r n) <$> ids.

Definition mfm_250k : data_mode_t :=
  {| rate := 5; name := "MFM-250k"; imd_mode := 2; is_fm := false |}.

(** A track that holds the sample [ids], read at [(cyl, head)] with
    every sector carrying the physical position as its logical one. *)
Definition track_of_ids `{disk_h} (cyl head code : Z) (ids : list Z)
    : track_t :=
  {| track_status := TRACK_UNKNOWN; data_mode := Some mfm_250k;
     phys_cyl := cyl; phys_head := head;
     num_sectors := Z.of_nat (length ids); sector_size_code := code;
     sectors :=
       ((λ r, set_log_addr cyl head r EMPTY_SECTOR) <$> ids)
       ++ replicate (Z.to_nat MAX_SECS - length ids) EMPTY_SECTOR;
     probed := false |}.

(** Nine sectors passing the head as in the comment of [probe_track]:
    7 8 9 1 2 3 4 5 6 7 8 9 1 2 ..., 31 ids in all. *)
Definition rot9 : list Z := [7; 8; 9; 1; 2; 3; 4; 5; 6].
Definition sample9 : list Z := cycle_ids rot9 0 31.
Definition track9 : track_t := track_of_ids (H := roomy) 2 0 2 sample9.

(** A track of more than 31 sectors, sampled from its lowest id on: the
    lowest id is the first of the sample and is not seen again. *)
Definition rising_tape : tape := play (id_replies 2 0 0 (seqZ 1 31)).

(** A sample with a gap. *)
Definition gap_track : track_t :=
  track_of_ids (H := roomy) 2 0 2 [4; 1; 2; 5].

(** A sample with an id the sector array of a 64-sector header has no
    room for. *)
Definition small : disk_h := {| MAX_SECS := 64; MAX_CYLS := 85 |}.
Definition wide_track : track_t :=
  track_of_ids (H := small) 2 0 2 [1; 200; 2].

Definition wide_tape : tape :=
  play (id_replies 2 0 2 (cycle_ids [1; 200; 2] 0 31)).

(** Three sectors on cylinder 2, head 0; the second carries logical
    cylinder 5. *)
Definition remapped_track : track_t :=
  let t := track_of_ids (H := roomy) 2 0 0 [1; 2; 3] in
  set_sectors
    (<[1%nat := set_log_addr 5 0 2 EMPTY_SECTOR]> (sectors t)) t.

(** Two 128-byte sectors, ids 1 and 2. *)
Definition bytes_A : list Z := replicate 128 0xAA.
Definition bytes_B : list Z := replicate 128 0xBB.
Definition bytes_C : list Z := replicate 128 0xCC.
Definition sample2 : list Z := cycle_ids [1; 2] 0 31.

Definition medium_AB : medium_t := λ id,
  if decide (id = 1) then Some bytes_A
  else if decide (id = 2) then Some bytes_B
  else None.

Definition probed_pair : track_t :=
  set_probed true (track_of_ids (H := roomy) 0 0 0 [1; 2]).

(** A first attempt in which the whole-track read fails, sector 1 is
    read and sector 2 is not; then a second attempt in which the
    whole-track read succeeds, with other bytes under sector 1. *)
Definition flaky_tape : tape :=
  play (id_replies 0 0 0 sample2
        ++ [failed_reply; data_reply bytes_A; failed_reply]
        ++ id_replies 0 0 0 sample2
        ++ [data_reply (bytes_B ++ bytes_C)]).

(** One attempt in which the whole-track read succeeds. *)
Definition good_tape : tape :=
  play (id_replies 0 0 0 sample2 ++ [data_reply (bytes_A ++ bytes_B)]).

(** Cylinder 2 of an ordinary double-sided disk: both sides answer, with
    logical cylinder 2. *)
Definition ordinary_tape : tape :=
  play (id_replies 2 0 2 sample9 ++ id_replies 2 1 2 sample9).

(** A 40-track disk in an 80-track drive: logical cylinder 1 under
    physical cylinder 2. *)
Definition forty_track_tape : tape :=
  play (id_replies 1 0 2 sample9 ++ id_replies 1 1 2 sample9).

(** Head 0 answers one id, of logical cylinder 1, and then fails; head 1
    answers. *)
Definition stale_tape : tape :=
  play ([id_reply 1 0 1 2; failed_reply] ++ id_replies 1 1 2 sample9).

(** Head 0 answers in no data mode; head 1 answers. *)
Definition silent_tape : tape :=
  play (replicate 7 failed_reply ++ id_replies 2 1 2 sample9).

(** The disk [process_floppy] starts from, for an 80-track drive. *)
Definition fresh_disk : disk_t := setup_disk (H := roomy) no_options 80.

(** The disk, and the controller, after the two probes of [probe_disk]. *)
Definition probed_disk (w : tape) : disk_t :=
  match probe_sides (H := roomy) no_options fresh_disk w with
  | Ret (disk, _) => disk
  | _ => fresh_disk
  end.
Definition probed_tape (w : tape) : tape :=
  match probe_sides (H := roomy) no_options fresh_disk w with
  | Ret (_, w') => w'
  | _ => w
  end.
Definition side_of (disk : disk_t) (head : Z) : track_t :=
  match track_at disk 2 head with
  | Ret t => t
  | _ => EMPTY_TRACK (H := roomy)
  end.
Definition first_sector (track : track_t) : sector_t :=
  default EMPTY_SECTOR (sectors track !! 0%nat).

(** The track, and the controller, after one attempt on [good_tape]. *)
Definition good_read : track_t :=
  match read_track (H := roomy) no_options (init_track (H := roomy) 0 0)
          good_tape with
  | Ret (_, t, _) => t
  | _ => EMPTY_TRACK (H := roomy)
  end.
Definition good_read_tape : tape :=
  match read_track (H := roomy) no_options (init_track (H := roomy) 0 0)
          good_tape with
  | Ret (_, _, w) => w
  | _ => good_tape
  end.


(** * Proofs *)

(** ** Results, arrays and loops *)

Lemma bind_Ret {A B} (m : outcome A) (k : A → outcome B) b :
  bind m k = Ret b ↔ ∃ a, m = Ret a ∧ k a = Ret b.
Proof.
  destruct m; simpl; split.
  - eauto.
  - intros [a' [Ha ?]]. by inversion Ha.
  - done.
  - by intros [? [? ?]].
  - done.
  - by intros [? [? ?]].
Qed.

Lemma array_get_Ret {A} (a : list A) i x :
  array_get a i = Ret x ↔ 0 ≤ i ∧ a !! Z.to_nat i = Some x.
Proof.
  unfold array_get. destruct (decide (0 ≤ i)); [|split; [done | lia]].
  destruct (a !! Z.to_nat i) eqn:E; split.
  - intros [= ->]. by split.
  - intros [_ [= ->]]. done.
  - done.
  - by intros [_ ?].
Qed.

Lemma array_get_in_range {A} (a : list A) i :
  0 ≤ i < Z.of_nat (length a) →
  ∃ x, array_get a i = Ret x ∧ a !! Z.to_nat i = Some x.
Proof.
  intros Hi. destruct (lookup_lt_is_Some_2 a (Z.to_nat i)) as [x Hx]; [lia|].
  exists x. split; [|done]. apply array_get_Ret. split; [lia|done].
Qed.

Lemma array_get_Undef {A} (a : list A) i :
  ¬ (0 ≤ i < Z.of_nat (length a)) → array_get a i = Undef.
Proof.
  intros Hi. unfold array_get. destruct (decide (0 ≤ i)); [|done].
  rewrite lookup_ge_None_2; [done | lia].
Qed.

Section loops.
Context {S : Type} (body : Z → S → outcome S).

Lemma for_from_inv (I : nat → S → Prop) n i s :
  I O s →
  (∀ k s, (k < n)%nat → I k s →
     ∃ s', body (i + Z.of_nat k) s = Ret s' ∧ I (Datatypes.S k) s') →
  ∃ s', for_from n i body s = Ret s' ∧ I n s'.
Proof.
  revert I i s. induction n as [|n IH]; intros I i s H0 Hstep; simpl.
  { eauto. }
  destruct (Hstep O s) as [s1 [E1 H1]]; [lia | done |].
  rewrite Z.add_0_r in E1. rewrite E1. simpl.
  apply (IH (λ k, I (Datatypes.S k))); [done|].
  intros k s2 Hk Hs2.
  destruct (Hstep (Datatypes.S k) s2) as [s3 [E3 H3]]; [lia|done|].
  exists s3. split; [|done]. rewrite <- E3. f_equal. lia.
Qed.

Lemma for_loop_inv (I : Z → S → Prop) lo hi s :
  lo ≤ hi →
  I lo s →
  (∀ i s, lo ≤ i < hi → I i s →
     ∃ s', body i s = Ret s' ∧ I (i + 1) s') →
  ∃ s', for_loop lo hi body s = Ret s' ∧ I hi s'.
Proof.
  intros Hle H0 Hstep. unfold for_loop.
  destruct (for_from_inv (λ k, I (lo + Z.of_nat k)) (Z.to_nat (hi - lo)) lo s)
    as [s' [E Hs']].
  - by rewrite Z.add_0_r.
  - intros k s1 Hk Hs1.
    destruct (Hstep (lo + Z.of_nat k) s1) as [s2 [E2 H2]]; [lia|done|].
    exists s2. split; [done|].
    replace (lo + Z.of_nat (Datatypes.S k)) with (lo + Z.of_nat k + 1)
      by lia.
    done.
  - exists s'. split; [done|].
    replace (lo + Z.of_nat (Z.to_nat (hi - lo))) with hi in Hs' by lia. done.
Qed.

Lemma for_loop_empty lo hi s : hi ≤ lo → for_loop lo hi body s = Ret s.
Proof.
  intros. unfold for_loop. by replace (Z.to_nat (hi - lo)) with O by lia.
Qed.
End loops.

Lemma bind_Ret_inv {A B} (m : outcome A) (k : A → outcome B) b :
  bind m k = Ret b → ∃ a, m = Ret a ∧ k a = Ret b.
Proof. apply bind_Ret. Qed.

Lemma for_from_preserves {S} (I : S → Prop) (body : Z → S → outcome S)
    n i s s' :
  (∀ i s s', body i s = Ret s' → I s → I s') →
  I s → for_from n i body s = Ret s' → I s'.
Proof.
  intros Hbody. revert i s. induction n as [|n IH]; intros i s Hs E; simpl in E.
  - by injection E as <-.
  - apply bind_Ret_inv in E as [s1 [E1 E2]]. eauto.
Qed.

Lemma for_loop_preserves {S} (I : S → Prop) (body : Z → S → outcome S)
    lo hi s s' :
  (∀ i s s', body i s = Ret s' → I s → I s') →
  I s → for_loop lo hi body s = Ret s' → I s'.
Proof. unfold for_loop. apply for_from_preserves. Qed.

Lemma array_get_Forall {A} (P : A → Prop) a i x :
  array_get a i = Ret x → Forall P a → P x.
Proof.
  intros [_ Hx]%array_get_Ret Ha. by eapply Forall_lookup_1.
Qed.

Lemma array_set_Forall {A} (P : A → Prop) a i x a' :
  array_set a i x = Ret a' → Forall P a → P x → Forall P a'.
Proof.
  unfold array_set. case_decide; [|done]. intros [= <-] Ha Hx.
  by apply Forall_insert.
Qed.

Ltac bind_inv E :=
  repeat match type of E with
  | bind _ _ = Ret _ =>
      let x := fresh "x" in let E1 := fresh "E" in
      apply bind_Ret_inv in E as [x [E1 E]]
  end.

(** ** track_scan_sectors *)

Lemma ids_of_lookup t (k : nat) :
  (k < Z.to_nat (num_sectors t))%nat →
  ids_of t !! k = log_sector <$> sectors t !! k.
Proof.
  intros Hk. unfold ids_of. rewrite list_lookup_fmap, lookup_take_lt; done.
Qed.

Lemma ids_of_length t :
  0 ≤ num_sectors t ≤ Z.of_nat (length (sectors t)) →
  length (ids_of t) = Z.to_nat (num_sectors t).
Proof. intros. unfold ids_of. rewrite length_fmap, length_take. lia. Qed.

Lemma array_set_Ret {A} (a : list A) i x :
  0 ≤ i < Z.of_nat (length a) →
  array_set a i x = Ret (<[Z.to_nat i := x]> a).
Proof. intros. unfold array_set. by rewrite decide_True. Qed.

Lemma array_set_Undef {A} (a : list A) i x :
  ¬ (0 ≤ i < Z.of_nat (length a)) → array_set a i x = Undef.
Proof. intros. unfold array_set. by rewrite decide_False. Qed.

Section scan.
Context `{disk_h}.

Lemma scan_inv_init : scan_inv [] scan_init.
Proof.
  split; simpl.
  - by rewrite length_replicate.
  - intros z Hz. split.
    + intros E. apply lookup_replicate in E as [? _]. done.
    + intros E. by apply elem_of_nil in E.
  - intros x Hx. by apply elem_of_nil in Hx.
  - by left.
  - intros x Hx. by apply elem_of_nil in Hx.
  - by left.
  - done.
  - done.
Qed.

Lemma scan_step_inv track i st l sector :
  sectors track !! Z.to_nat i = Some sector → 0 ≤ i →
  0 ≤ log_sector sector < MAX_SECS →
  scan_inv l st →
  ∃ st', scan_step track i st = Ret st' ∧
         scan_inv (l ++ [log_sector sector]) st'.
Proof.
  intros Hs Hi Hid [Hlen Hseen Hlo1 Hlo2 Hhi1 Hhi2 Hlp Hhp]. unfold scan_step.
  assert (array_get (sectors track) i = Ret sector) as ->
    by (apply array_get_Ret; done).
  simpl. rewrite array_set_Ret by lia. simpl.
  set (id := log_sector sector) in *.
  eexists. split; [done|].
  assert (Hseen' : ∀ z, 0 ≤ z →
    <[Z.to_nat id:=true]> (seen st) !! Z.to_nat z = Some true
    ↔ z ∈ l ++ [id]).
  { intros z Hz. rewrite elem_of_app, list_elem_of_singleton.
    destruct (decide (z = id)) as [->|Hne].
    - rewrite list_lookup_insert_eq by lia. split; [by right|done].
    - rewrite list_lookup_insert_ne by lia. rewrite Hseen by done.
      split; [by left|]. by intros [?|?]. }
  destruct (decide (id < lowest_id st)) as [Hlt|Hge];
    destruct (decide (_ > _)) as [Hgt|Hle]; simpl in *;
    split; simpl; try (rewrite length_insert; done); try done;
    try (intros x [Hx| ->%list_elem_of_singleton]%elem_of_app;
         try specialize (Hlo1 _ Hx); try specialize (Hhi1 _ Hx); lia);
    rewrite ?elem_of_app, ?list_elem_of_singleton.
  all: try tauto.
  all: try (destruct Hlo2 as [[-> ->]|?]; tauto).
  all: try (destruct Hhi2 as [?|?]; tauto).
  all: try (destruct Hlo2 as [[-> ?]|?]; [lia|tauto]).
  all: try (destruct (lowest st); [tauto|];
            destruct Hlo2 as [[_ ?]|?]; [lia|]; subst l;
            match goal with X : _ ∈ [] |- _ => by apply elem_of_nil in X end).
  all: try (destruct (highest st); tauto).
  all: try (destruct (highest st);
            [destruct Hhp; split; [done|apply elem_of_app; by left] | done]).
  all: destruct (lowest st);
         [destruct Hlp; split; [done|apply elem_of_app; by left] |].
  all: destruct Hlo2 as [[_ ?]|?]; [lia|]; subst l;
         match goal with X : _ ∈ [] |- _ => by apply elem_of_nil in X end.
Qed.

Lemma scan_loop_inv track :
  0 ≤ num_sectors track ≤ Z.of_nat (length (sectors track)) →
  (∀ id, id ∈ ids_of track → 0 ≤ id < MAX_SECS) →
  ∃ st, for_loop 0 (num_sectors track) (scan_step track) scan_init = Ret st
        ∧ scan_inv (ids_of track) st.
Proof.
  intros Hn Hids.
  destruct (for_loop_inv (scan_step track)
    (λ i st, scan_inv (take (Z.to_nat i) (ids_of track)) st)
    0 (num_sectors track) scan_init) as [st [E Hst]].
  - lia.
  - simpl. apply scan_inv_init.
  - intros i st [Hi1 Hi2] Hinv.
    destruct (lookup_lt_is_Some_2 (sectors track) (Z.to_nat i)) as [s Hs];
      [lia|].
    assert (Hid : ids_of track !! Z.to_nat i = Some (log_sector s)).
    { rewrite ids_of_lookup by lia. by rewrite Hs. }
    destruct (scan_step_inv track i st (take (Z.to_nat i) (ids_of track))
                s Hs Hi1) as [st' [E' H']]; [|done|].
    { apply Hids. by eapply list_elem_of_lookup_2. }
    exists st'. split; [done|].
    replace (Z.to_nat (i + 1)) with (Datatypes.S (Z.to_nat i)) by lia.
    by erewrite take_S_r.
  - exists st. split; [done|].
    rewrite take_ge in Hst; [done|]. rewrite ids_of_length; lia.
Qed.

Lemma contiguous_loop (sn : list bool) lo hi :
  0 ≤ lo → hi ≤ Z.of_nat (length sn) →
  ∃ c, for_loop lo hi (λ i contiguous,
         let* b := array_get sn i in
         Ret (if b then contiguous else false)) true = Ret c
       ∧ (c = true ↔ ∀ j, lo ≤ j < hi → sn !! Z.to_nat j = Some true).
Proof.
  intros Hlo Hhi. destruct (decide (lo ≤ hi)) as [Hle|Hgt].
  - apply (for_loop_inv _
      (λ i c, c = true
              ↔ ∀ j, lo ≤ j < i → sn !! Z.to_nat j = Some true));
      [done| |].
    + split; [|done]. intros _ j Hj. lia.
    + intros i c Hi Hc.
      destruct (array_get_in_range sn i) as [b [-> Hb]]; [lia|]. simpl.
      eexists. split; [done|]. destruct b.
      * rewrite Hc. split.
        -- intros Hall j Hj. destruct (decide (j = i)) as [->|?]; [done|].
           apply Hall. lia.
        -- intros Hall j Hj. apply Hall. lia.
      * split; [done|]. intros Hall. specialize (Hall i). rewrite Hb in Hall.
        assert (Some false = Some true) by (apply Hall; lia). done.
  - rewrite for_loop_empty by lia. eexists. split; [done|].
    split; [|done]. intros _ j Hj. lia.
Qed.

Lemma scan_loop_undef track n i st :
  0 ≤ i → i + Z.of_nat n ≤ Z.of_nat (length (sectors track)) →
  length (seen st) = Z.to_nat MAX_SECS →
  (∃ k s, i ≤ k < i + Z.of_nat n ∧ sectors track !! Z.to_nat k = Some s
          ∧ ¬ (0 ≤ log_sector s < MAX_SECS)) →
  for_from n i (scan_step track) st = Undef.
Proof.
  revert i st. induction n as [|n IH];
    intros i st Hi Hn Hlen [k [s [Hk [Hs Hbad]]]].
  { lia. }
  simpl.
  destruct (array_get_in_range (sectors track) i) as [s0 [E0 Hs0]]; [lia|].
  unfold scan_step at 1. rewrite E0. simpl.
  destruct (decide (0 ≤ log_sector s0 < MAX_SECS)) as [Hok|Hbad0].
  - rewrite array_set_Ret by lia. simpl.
    assert (k ≠ i) by (intros ->; rewrite Hs0 in Hs; congruence).
    match goal with |- for_from _ _ _ ?st1 = _ =>
      assert (length (seen st1) = Z.to_nat MAX_SECS) as Hlen1
    end.
    { repeat case_decide; simpl; by rewrite length_insert. }
    apply IH; [lia | lia | done |]. exists k, s. split; [lia|done].
  - by rewrite array_set_Undef by lia.
Qed.

Lemma track_scan_sectors_spec track :
  0 ≤ MAX_SECS →
  0 ≤ num_sectors track ≤ Z.of_nat (length (sectors track)) →
  (∀ id, id ∈ ids_of track → 0 ≤ id < MAX_SECS) →
  ∃ lo hi c, track_scan_sectors track = Ret (lo, hi, c)
    ∧ (c = true ↔ contiguous_ids (ids_of track))
    ∧ match lo with
      | Some s => log_sector s ∈ ids_of track
                  ∧ ∀ x, x ∈ ids_of track → log_sector s ≤ x
      | None => ids_of track = []
      end
    ∧ match hi with
      | Some s => log_sector s ∈ ids_of track
                  ∧ ∀ x, x ∈ ids_of track → x ≤ log_sector s
      | None => ∀ x, x ∈ ids_of track → x = 0
      end.
Proof.
  intros HM Hn Hids. unfold track_scan_sectors.
  destruct (scan_loop_inv track Hn Hids)
    as [st [-> [Hlen Hseen Hlo1 Hlo2 Hhi1 Hhi2 Hlp Hhp]]].
  simpl.
  assert (Hhi : highest_id st < MAX_SECS ∨ ids_of track = []).
  { destruct Hhi2 as [->|Hin].
    - destruct (ids_of track) as [|x l] eqn:E; [by right|left].
      assert (0 ≤ x < MAX_SECS) by (apply Hids; left). lia.
    - left. apply Hids in Hin. lia. }
  assert (Hlo : 0 ≤ lowest_id st).
  { destruct Hlo2 as [[_ ->]|Hin]; [done|]. apply Hids in Hin. lia. }
  destruct (contiguous_loop (seen st) (lowest_id st) (highest_id st))
    as [c [-> Hc]]; [done| |].
  { destruct Hhi as [?|E]; [lia|].
    destruct Hhi2 as [->|Hin]; [lia|]. rewrite E in Hin.
    by apply elem_of_nil in Hin. }
  simpl. exists (lowest st), (highest st), c. split; [done|].
  split; [|split].
  - rewrite Hc. unfold contiguous_ids. split.
    + intros Hall a b id Ha Hb Hid.
      pose proof (Hlo1 _ Ha). pose proof (Hhi1 _ Hb).
      destruct (decide (id < highest_id st)) as [Hlt|Hge].
      * apply Hseen; [lia|]. apply Hall. lia.
      * assert (id = b) as -> by lia. done.
    + intros Hall j Hj.
      apply Hseen; [lia|].
      destruct Hlo2 as [[E ?]|Hlin].
      { rewrite E in Hhi2. destruct Hhi2 as [?|X]; [lia|].
        by apply elem_of_nil in X. }
      destruct Hhi2 as [?|Hhin]; [lia|].
      apply (Hall _ _ j Hlin Hhin). lia.
  - destruct (lowest st) as [s|]; [|done]. destruct Hlp as [E Hin].
    by rewrite E.
  - destruct (highest st) as [s|].
    + destruct Hhp as [E Hin]. by rewrite E.
    + intros x Hx. pose proof (Hhi1 _ Hx). apply Hids in Hx. lia.
Qed.
End scan.

(** ** Rotation extraction *)

Lemma elem_of_take_succ {A} (l : list A) i x y :
  0 ≤ i → l !! Z.to_nat i = Some y →
  x ∈ take (Z.to_nat (i + 1)) l ↔ x ∈ take (Z.to_nat i) l ∨ x = y.
Proof.
  intros Hi Hy. replace (Z.to_nat (i + 1)) with (S (Z.to_nat i)) by lia.
  erewrite take_S_r by done. by rewrite elem_of_app, list_elem_of_singleton.
Qed.

Lemma array_get_of_nat {A} (a : list A) (k : nat) x :
  a !! k = Some x → array_get a (Z.of_nat k) = Ret x.
Proof. intros. apply array_get_Ret. rewrite Nat2Z.id. split; [lia|done]. Qed.

Section extraction.
Context `{disk_h}.

Lemma find_lowest_spec track :
  0 < num_sectors track ≤ Z.of_nat (length (sectors track)) →
  (∀ id, id ∈ ids_of track → id ≤ MAX_SECS) →
  ∃ m e, find_lowest track = Ret (m, e)
         ∧ lowest_last (ids_of track) (num_sectors track) m e.
Proof.
  intros Hn Hids. unfold find_lowest.
  set (l := ids_of track).
  destruct (for_loop_inv
    (λ i '(end_sec, end_pos),
      let* sector := array_get (sectors track) i in
      let sec := log_sector sector in
      Ret (if decide (sec ≤ end_sec) then (sec, i) else (end_sec, end_pos)))
    (λ i st, if decide (i = 0) then st = (MAX_SECS, -1)
             else lowest_last l i st.1 st.2)
    0 (num_sectors track) (MAX_SECS, -1)) as [[m e] [E Hinv]].
  - lia.
  - done.
  - intros i [end_sec end_pos] Hi Hinv.
    destruct (array_get_in_range (sectors track) i) as [s [-> Hs]]; [lia|].
    simpl.
    assert (Hl : l !! Z.to_nat i = Some (log_sector s)).
    { unfold l. rewrite ids_of_lookup by lia. by rewrite Hs. }
    assert (Hle : log_sector s ≤ MAX_SECS).
    { apply Hids. by eapply list_elem_of_lookup_2. }
    eexists. split; [done|]. rewrite decide_False by lia.
    destruct (decide (i = 0)) as [->|Hi0].
    + injection Hinv as -> ->. rewrite decide_True by done. simpl.
      split; [lia|done| |intros; lia].
      intros x Hx. eapply elem_of_take_succ in Hx; [|done|done].
      destruct Hx as [Hx| ->]; [|lia]. by apply elem_of_nil in Hx.
    + destruct Hinv as [Hr Hat Hmin Hlast]. simpl in *.
      destruct (decide (log_sector s ≤ end_sec)) as [Hd|Hd]; simpl.
      * split; [lia|done| |intros; lia].
        intros x Hx. eapply elem_of_take_succ in Hx; [|lia|done].
        destruct Hx as [Hx| ->]; [|lia]. apply Hmin in Hx. lia.
      * split; [lia|done| |].
        -- intros x Hx. eapply elem_of_take_succ in Hx; [|lia|done].
           destruct Hx as [Hx| ->]; [|lia]. by apply Hmin.
        -- intros j Hj. destruct (decide (j = i)) as [->|?].
           ++ rewrite Hl. intros [=]. lia.
           ++ apply Hlast. lia.
  - exists m, e. split; [exact E|].
    rewrite decide_False in Hinv by lia. done.
Qed.

Lemma scan_back_found track m (pos q : nat) :
  (q ≤ pos)%nat → (pos < length (sectors track))%nat →
  id_at track q = Some m →
  (∀ j, (q < j ≤ pos)%nat → id_at track j ≠ Some m) →
  scan_back track m pos = Ret (Some (Z.of_nat q)).
Proof.
  intros Hq Hpos Hat Hnot. induction pos as [|pos IH].
  - assert (q = O) as -> by lia.
    unfold id_at in Hat. destruct (sectors track !! O) as [s|] eqn:Hs; [|done].
    injection Hat as Hat. cbn [scan_back].
    rewrite (array_get_of_nat _ _ _ Hs). cbn [bind].
    by rewrite decide_False by (intros ?; done).
  - destruct (lookup_lt_is_Some_2 (sectors track) (S pos)) as [s Hs]; [lia|].
    cbn [scan_back]. rewrite (array_get_of_nat _ _ _ Hs). cbn [bind].
    destruct (decide (q = S pos)) as [->|Hne].
    + unfold id_at in Hat. rewrite Hs in Hat. injection Hat as Hat.
      by rewrite decide_False by (intros ?; done).
    + rewrite decide_True.
      * apply IH; [lia|lia|]. intros j Hj. apply Hnot. lia.
      * intros E. apply (Hnot (S pos)); [lia|]. unfold id_at.
        by rewrite Hs, <- E.
Qed.

Lemma scan_back_none track m (pos : nat) :
  (pos < length (sectors track))%nat →
  (∀ j, (j ≤ pos)%nat → id_at track j ≠ Some m) →
  scan_back track m pos = Ret None.
Proof.
  intros Hpos Hnot. induction pos as [|pos IH].
  - destruct (lookup_lt_is_Some_2 (sectors track) O) as [s Hs]; [lia|].
    cbn [scan_back]. rewrite (array_get_of_nat _ _ _ Hs). cbn [bind].
    rewrite decide_True; [done|].
    intros E. apply (Hnot O); [lia|]. unfold id_at. by rewrite Hs, <- E.
  - destruct (lookup_lt_is_Some_2 (sectors track) (S pos)) as [s Hs]; [lia|].
    cbn [scan_back]. rewrite (array_get_of_nat _ _ _ Hs). cbn [bind].
    rewrite decide_True.
    + apply IH; [lia|]. intros j Hj. apply Hnot. lia.
    + intros E. apply (Hnot (S pos)); [lia|]. unfold id_at. by rewrite Hs, <- E.
Qed.

Lemma id_at_ids_of track (j : nat) :
  (j < Z.to_nat (num_sectors track))%nat →
  id_at track j = ids_of track !! j.
Proof. intros. unfold id_at. by rewrite ids_of_lookup. Qed.
End extraction.

Lemma mod_same_residue_far a b P :
  0 < P → a `mod` P = b `mod` P → a < b → a + P ≤ b.
Proof.
  intros HP E Hab.
  pose proof (Z.div_mod a P ltac:(lia)) as Ha.
  pose proof (Z.div_mod b P ltac:(lia)) as Hb.
  rewrite E in Ha.
  assert (Hq : b - a = P * (b `div` P - a `div` P)) by lia.
  assert (0 < b `div` P - a `div` P) by nia.
  nia.
Qed.

Lemma mod_shift a P : 0 < P → (a + P) `mod` P = a `mod` P.
Proof.
  intros. replace (a + P) with (a + 1 * P) by lia. apply Z_mod_plus_full.
Qed.

Lemma mod_unshift a P : 0 < P → (a - P) `mod` P = a `mod` P.
Proof.
  intros. replace (a - P) with (a + (-1) * P) by lia.
  apply Z_mod_plus_full.
Qed.

Lemma cycle_ids_lookup rot phase n i :
  rot ≠ [] → 0 ≤ i < n →
  cycle_ids rot phase n !! Z.to_nat i
  = rot !! Z.to_nat ((phase + i) `mod` Z.of_nat (length rot)).
Proof.
  intros Hne Hi. unfold cycle_ids.
  rewrite list_lookup_fmap, lookup_seqZ_lt by lia. simpl.
  rewrite Z2Nat.id, ?Z.add_0_l by lia.
  assert (0 < Z.of_nat (length rot)) by (destruct rot; [done|simpl; lia]).
  pose proof (Z.mod_pos_bound (phase + i) (Z.of_nat (length rot))).
  destruct (lookup_lt_is_Some_2 rot
              (Z.to_nat ((phase + i) `mod` Z.of_nat (length rot))))
    as [x ->]; [lia|done].
Qed.

Section cyclic.
Context `{disk_h}.

Lemma memmove_sectors_take (a : list sector_t) start n :
  0 ≤ start → 0 ≤ n → start + n ≤ Z.of_nat (length a) →
  take (Z.to_nat n) (memmove_sectors a start n)
  = take (Z.to_nat n) (drop (Z.to_nat start) a).
Proof.
  intros. unfold memmove_sectors. rewrite take_app_le.
  - by rewrite take_take, Nat.min_id.
  - rewrite length_take, length_drop. lia.
Qed.

(** C4, as amended.  On a sample that is the rotation [rot] of p
    sector ids repeated, covering it at least twice, with the lowest id
    [m] once per rotation at position [k]: rotation extraction finds
    the last occurrence of [m] in the sample (at [start + p]) and the
    one before it (at [start]), and keeps the half-open range from the
    earlier occurrence on: the kept list has length exactly p and is,
    in arrival order, the rotation starting AT the earlier occurrence
    of the lowest id ([rotate k rot]), not after it. *)
Theorem extract_rotation_cyclic rot phase k m track :
  cyclic_sample rot phase track →
  lowest_once rot k m →
  Forall (λ x, x ≤ MAX_SECS) rot →
  ∃ t' start,
    extract_rotation track = Ret (Some t')
    ∧ num_sectors t' = Z.of_nat (length rot)
    ∧ ids_of t' = rotate k rot
    ∧ lowest_last (ids_of track) (num_sectors track) m
        (start + Z.of_nat (length rot))
    ∧ 0 ≤ start ∧ ids_of track !! Z.to_nat start = Some m
    ∧ take (length rot) (sectors t')
      = take (length rot) (drop (Z.to_nat start) (sectors track)).
Proof.
  intros [Hne Hph Hfit Htw Hcyc] [Hk Hmin] Hmax.
  rewrite Forall_forall in Hmax.
  assert (Hids : ∀ i, 0 ≤ i < num_sectors track →
            ids_of track !! Z.to_nat i
            = rot !! Z.to_nat ((phase + i) `mod` Z.of_nat (length rot))).
  { intros i Hi. rewrite Hcyc. by apply cycle_ids_lookup. }
  clear Hcyc.
  set (P := Z.of_nat (length rot)) in *.
  remember (num_sectors track) as n eqn:En.
  remember (ids_of track) as l eqn:El.
  assert (HP : 0 < P) by (destruct rot; [done|unfold P; simpl; lia]).
  assert (Hkp : Z.of_nat k < P) by (apply lookup_lt_Some in Hk; lia).
  assert (Hlen : length l = Z.to_nat n)
    by (subst l n; apply ids_of_length; lia).
  assert (Hrot : ∀ i, 0 ≤ i < n →
            ∃ x, l !! Z.to_nat i = Some x ∧ x ∈ rot).
  { intros i Hi. rewrite (Hids i Hi).
    destruct (lookup_lt_is_Some_2 rot (Z.to_nat ((phase + i) `mod` P)))
      as [x Hx].
    { pose proof (Z.mod_pos_bound (phase + i) P HP). lia. }
    exists x. split; [done|]. by eapply list_elem_of_lookup_2. }
  assert (Hocc : ∀ i, 0 ≤ i < n →
            l !! Z.to_nat i = Some m ↔ (phase + i) `mod` P = Z.of_nat k).
  { intros i Hi. rewrite (Hids i Hi). split.
    - intros Hx. apply Hmin in Hx as [_ Hx]. specialize (Hx eq_refl).
      pose proof (Z.mod_pos_bound (phase + i) P HP). lia.
    - intros ->. by rewrite Nat2Z.id. }
  destruct (find_lowest_spec track) as [m' [e [Efl [Hr Hat Hlow Hlast]]]].
  { lia. }
  { intros id Hid. apply list_elem_of_lookup in Hid as [j Hj].
    rewrite <- El in Hj.
    pose proof (lookup_lt_Some _ _ _ Hj) as Hjn.
    destruct (Hrot (Z.of_nat j)) as [x [Hx Hin]]; [lia|].
    rewrite Nat2Z.id in Hx. rewrite Hj in Hx.
    injection Hx as ->. by apply Hmax. }
  rewrite <- En in Hr, Hlow, Hlast. rewrite <- El in Hat, Hlow, Hlast.
  assert (m' = m) as ->.
  { assert (m ≤ m').
    { destruct (Hrot e Hr) as [x [Hx Hin]]. rewrite Hat in Hx.
      injection Hx as <-. apply list_elem_of_lookup in Hin as [j Hj].
      by apply Hmin in Hj as [? _]. }
    assert (m' ≤ m); [|lia].
    apply Hlow. set (i0 := (Z.of_nat k - phase) `mod` P).
    pose proof (Z.mod_pos_bound (Z.of_nat k - phase) P HP).
    apply list_elem_of_lookup. exists (Z.to_nat i0).
    rewrite lookup_take_lt by lia. apply Hocc; [lia|].
    unfold i0. rewrite Zplus_mod_idemp_r.
    replace (phase + (Z.of_nat k - phase)) with (Z.of_nat k) by lia.
    apply Z.mod_small. lia. }
  assert (He : (phase + e) `mod` P = Z.of_nat k) by (by apply Hocc).
  assert (Hend : n ≤ e + P).
  { destruct (decide (n ≤ e + P)); [done|]. exfalso.
    apply (Hlast (e + P)); [lia|]. apply Hocc; [lia|].
    replace (phase + (e + P)) with (phase + e + P) by lia.
    by rewrite mod_shift. }
  set (start := e - P).
  assert (Hst : l !! Z.to_nat start = Some m).
  { apply Hocc; [lia|]. unfold start.
    replace (phase + (e - P)) with (phase + e - P) by lia.
    by rewrite mod_unshift. }
  unfold extract_rotation. rewrite Efl. cbn [bind].
  unfold scan_backwards. rewrite decide_True by lia.
  rewrite (scan_back_found track m (Z.to_nat (e - 1)) (Z.to_nat start)).
  2:{ lia. } 2:{ lia. }
  2:{ rewrite id_at_ids_of by lia. by rewrite <- El. }
  2:{ intros j Hj. rewrite id_at_ids_of by lia. rewrite <- El.
      replace j with (Z.to_nat (Z.of_nat j)) by lia.
      rewrite Hocc by lia. intros Ej.
      assert (phase + Z.of_nat j + P ≤ phase + e); [|lia].
      apply mod_same_residue_far; [done|congruence|lia]. }
  cbn [bind]. rewrite Z2Nat.id by lia.
  eexists _, start. split; [done|].
  replace (e - start) with P by (unfold start; lia).
  assert (Htake : take (length rot)
                    (memmove_sectors (sectors track) start P)
                  = take (length rot) (drop (Z.to_nat start) (sectors track))).
  { replace (length rot) with (Z.to_nat P) by (unfold P; lia).
    apply memmove_sectors_take; unfold start; lia. }
  split; [done|]. split; [|split; [|split; [lia|split; [done|exact Htake]]]].
  - unfold ids_of. simpl.
    replace (Z.to_nat P) with (length rot) by (unfold P; lia).
    rewrite Htake. apply list_eq. intros j.
    destruct (decide (j < length rot)%nat) as [Hj|Hj].
    + rewrite lookup_rotate_r by done.
      rewrite list_lookup_fmap, lookup_take_lt, lookup_drop by done.
      replace (Z.to_nat start + j)%nat
        with (Z.to_nat (start + Z.of_nat j)) by lia.
      pose proof (ids_of_lookup track (Z.to_nat (start + Z.of_nat j))) as Hl.
      rewrite <- Hl by (unfold start; lia). rewrite <- El.
      rewrite Hids by (unfold start; lia). f_equal.
      unfold rotate_nat_add. f_equal. fold P.
      replace (phase + (start + Z.of_nat j))
        with (phase + e + Z.of_nat j - P) by (unfold start; lia).
      rewrite mod_unshift by done.
      rewrite <- Zplus_mod_idemp_l, He. done.
    + rewrite !lookup_ge_None_2; [done| |].
      * rewrite length_rotate. lia.
      * rewrite length_fmap, length_take. lia.
  - replace (start + P) with e by (unfold start; lia). by split.
Qed.
End cyclic.

Section once.
Context `{disk_h}.

Lemma find_lowest_only_at track m e :
  num_sectors track ≤ Z.of_nat (length (sectors track)) →
  (∀ id, id ∈ ids_of track → id ≤ MAX_SECS) →
  lowest_only_at track m e →
  find_lowest track = Ret (m, e).
Proof.
  intros Hn Hids (He & Hat & Hmin & Hone).
  destruct (find_lowest_spec track) as [m' [e' [E [Hr' Hat' Hmin' Hlast']]]];
    [lia|done|].
  assert (m' = m) as ->.
  { assert (m ≤ m') by (apply Hmin; by eapply list_elem_of_lookup_2).
    assert (m' ≤ m); [|lia]. apply Hmin'.
    apply list_elem_of_lookup. exists (Z.to_nat e).
    by rewrite lookup_take_lt by lia. }
  destruct (decide (e' = e)) as [->|Hne]; [done|].
  by destruct (Hone e' Hr' Hne).
Qed.

Lemma extract_rotation_lowest_once track m e :
  num_sectors track ≤ Z.of_nat (length (sectors track)) →
  (∀ id, id ∈ ids_of track → id ≤ MAX_SECS) →
  lowest_only_at track m e →
  extract_rotation track = if decide (e = 0) then Undef else Ret None.
Proof.
  intros Hn Hids Honly. unfold extract_rotation.
  rewrite (find_lowest_only_at track m e) by done. cbn [bind].
  destruct Honly as (He & Hat & Hmin & Hone). unfold scan_backwards.
  destruct (decide (e = 0)) as [->|Hne].
  - by rewrite decide_False by lia.
  - rewrite decide_True by lia.
    rewrite (scan_back_none track m); [done|lia|].
    intros j Hj. rewrite id_at_ids_of by lia.
    replace j with (Z.to_nat (Z.of_nat j)) by lia. apply Hone; lia.
Qed.
End once.

(** ** write_imd_track *)

Lemma imd_flags_cyl c h :
  Z.lor (imd_flags c h) IMD_NEED_CYL_MAP = imd_flags true h.
Proof. by destruct c, h. Qed.
Lemma imd_flags_head c h :
  Z.lor (imd_flags c h) IMD_NEED_HEAD_MAP = imd_flags c true.
Proof. by destruct c, h. Qed.

Lemma bool_decide_Exists_snoc {A} (P : A → Prop) `{∀ x, Decision (P x)}
    l x :
  bool_decide (Exists P (l ++ [x]))
  = bool_decide (Exists P l) || bool_decide (P x).
Proof.
  apply eq_true_iff_eq. rewrite orb_true_iff, !bool_decide_eq_true.
  rewrite Exists_app, Exists_cons, Exists_nil. tauto.
Qed.

Lemma imd_maps_spec track :
  0 ≤ num_sectors track ≤ Z.of_nat (length (sectors track)) →
  let S := take (Z.to_nat (num_sectors track)) (sectors track) in
  imd_maps track
  = Ret (imd_flags (need_cyl_map track) (need_head_map track),
         log_sector <$> S, log_cyl <$> S, log_head <$> S).
Proof.
  intros Hn S. unfold imd_maps.
  destruct (for_loop_inv
    (λ i '(flags, sec_map, cyl_map, head_map),
      let* sector := array_get (sectors track) i in
      let flags :=
        if decide (log_cyl sector ≠ phys_cyl track)
        then Z.lor flags IMD_NEED_CYL_MAP else flags in
      let flags :=
        if decide (log_head sector ≠ phys_head track)
        then Z.lor flags IMD_NEED_HEAD_MAP else flags in
      Ret (flags, sec_map ++ [log_sector sector], cyl_map ++ [log_cyl sector],
           head_map ++ [log_head sector]))
    (λ i st,
      let Si := take (Z.to_nat i) (sectors track) in
      st = (imd_flags
              (bool_decide (Exists (λ s, log_cyl s ≠ phys_cyl track) Si))
              (bool_decide (Exists (λ s, log_head s ≠ phys_head track) Si)),
            log_sector <$> Si, log_cyl <$> Si, log_head <$> Si))
    0 (num_sectors track) (0, [], [], [])) as [st [E Hst]].
  - lia.
  - done.
  - intros i [[[flags sec_map] cyl_map] head_map] Hi Hinv.
    destruct (array_get_in_range (sectors track) i) as [s [-> Hs]]; [lia|].
    cbn [bind]. eexists. split; [done|]. cbv zeta.
    replace (Z.to_nat (i + 1)) with (Datatypes.S (Z.to_nat i)) by lia.
    erewrite take_S_r by done. rewrite !fmap_app. simpl.
    rewrite !bool_decide_Exists_snoc.
    injection Hinv as -> -> -> ->.
    destruct (decide (log_cyl s ≠ _)), (decide (log_head s ≠ _));
      repeat case_bool_decide; try contradiction; reflexivity.
  - cbv zeta in Hst. subst st. exact E.
Qed.

Lemma sector_bytes_nonneg code : 0 ≤ sector_bytes code.
Proof. unfold sector_bytes. by apply Z.shiftl_nonneg. Qed.

Lemma imd_sector_records_total track :
  0 ≤ num_sectors track ≤ Z.of_nat (length (sectors track)) →
  buffers_sized track →
  ∃ records, imd_sector_records track = Ret records.
Proof.
  intros Hn Hbuf. unfold imd_sector_records.
  destruct (for_loop_inv
    (λ i image,
      let* sector := array_get (sectors track) i in
      match data sector with
      | None => Ret (image ++ [IMD_SDR_UNAVAILABLE])
      | Some buf =>
        let* bytes := slice buf 0 (sector_bytes (sector_size_code track)) in
        Ret (image ++ [IMD_SDR_NORMAL] ++ bytes)
      end)
    (λ _ _, True) 0 (num_sectors track) []) as [st [E _]];
    [lia|done| |by eauto].
  intros i image Hi _.
  destruct (array_get_in_range (sectors track) i) as [s [-> Hs]]; [lia|].
  cbn [bind]. destruct (data s) as [buf|] eqn:Hd; [|by eauto].
  unfold slice. rewrite decide_True; [by eauto|].
  pose proof (sector_bytes_nonneg (sector_size_code track)).
  split; [lia|split; [lia|]]. rewrite Z.add_0_l.
  unfold buffers_sized in Hbuf.
  eapply (Forall_lookup_1 _ _ (Z.to_nat i) s) in Hbuf.
  - cbv beta in Hbuf. by rewrite Hd in Hbuf.
  - by rewrite lookup_take_lt by lia.
Qed.

Lemma imd_flags_land_cyl c h :
  Z.land (imd_flags c h) IMD_NEED_CYL_MAP ≠ 0 ↔ c = true.
Proof. destruct c, h; vm_compute; split; congruence. Qed.
Lemma imd_flags_land_head c h :
  Z.land (imd_flags c h) IMD_NEED_HEAD_MAP ≠ 0 ↔ h = true.
Proof. destruct c, h; vm_compute; split; congruence. Qed.

Lemma small_head_bit head n :
  0 ≤ head < 64 → 6 ≤ n → Z.testbit head n = false.
Proof.
  intros Hh Hn. apply Z.testbit_false; [lia|].
  assert (Hp : 2 ^ 6 ≤ 2 ^ n) by (apply Z.pow_le_mono_r; lia).
  change (2 ^ 6) with 64 in Hp. rewrite Z.div_small by lia. done.
Qed.

Lemma third_byte_flags c h head :
  0 ≤ head < 64 →
  Z.testbit (u8 (Z.lor (imd_flags c h) head)) 7 = c
  ∧ Z.testbit (u8 (Z.lor (imd_flags c h) head)) 6 = h.
Proof.
  intros Hh. unfold u8. change 256 with (2 ^ 8).
  rewrite (Z.mod_pow2_bits_low _ 8 7), (Z.mod_pow2_bits_low _ 8 6) by lia.
  rewrite !Z.lor_spec.
  rewrite (small_head_bit head 7), (small_head_bit head 6) by lia.
  by destruct c, h.
Qed.

(** C7.  [write_imd_track] emits the five header bytes, the sector-number
    map (always), then the logical-cylinder map if and only if some
    sector's logical cylinder differs from the track's physical cylinder,
    then the logical-head map if and only if some sector's logical head
    differs from the track's physical head, then the sector records; bit
    7 and bit 6 of the third header byte tell which maps follow. *)
Theorem write_imd_track_maps track mode :
  data_mode track = Some mode →
  0 ≤ num_sectors track ≤ Z.of_nat (length (sectors track)) →
  0 ≤ phys_head track < 64 →
  buffers_sized track →
  let S := take (Z.to_nat (num_sectors track)) (sectors track) in
  ∃ b0 b1 b2 b3 b4 records,
    write_imd_track track
    = Ret ([b0; b1; b2; b3; b4]
           ++ (log_sector <$> S)
           ++ (if need_cyl_map track then log_cyl <$> S else [])
           ++ (if need_head_map track then log_head <$> S else [])
           ++ records)
    ∧ imd_sector_records track = Ret records
    ∧ Z.testbit b2 7 = need_cyl_map track
    ∧ Z.testbit b2 6 = need_head_map track
    ∧ (need_cyl_map track = true
       ↔ ∃ s, s ∈ S ∧ log_cyl s ≠ phys_cyl track)
    ∧ (need_head_map track = true
       ↔ ∃ s, s ∈ S ∧ log_head s ≠ phys_head track).
Proof.
  intros Hmode Hn Hhead Hbuf S.
  destruct (imd_sector_records_total track Hn Hbuf) as [records Hrec].
  unfold write_imd_track. rewrite (imd_maps_spec track Hn). cbn [bind].
  unfold imd_header. rewrite Hmode. cbn [bind]. rewrite Hrec. cbn [bind].
  destruct (third_byte_flags (need_cyl_map track) (need_head_map track)
              (phys_head track) Hhead) as (H7 & H6).
  do 5 eexists. exists records.
  split; [|split; [done|split; [exact H7|split; [exact H6|]]]].
  - f_equal. simpl. do 6 f_equal.
    destruct (need_cyl_map track) eqn:Ec.
    + rewrite decide_True by (by apply imd_flags_land_cyl). f_equal.
      destruct (need_head_map track) eqn:Eh.
      * by rewrite decide_True by (by apply imd_flags_land_head).
      * rewrite decide_False; [done|]. rewrite imd_flags_land_head. done.
    + rewrite decide_False by (rewrite imd_flags_land_cyl; done). simpl.
      destruct (need_head_map track) eqn:Eh.
      * by rewrite decide_True by (by apply imd_flags_land_head).
      * rewrite decide_False; [done|]. rewrite imd_flags_land_head. done.
  - unfold need_cyl_map, need_head_map. rewrite !bool_decide_eq_true.
    rewrite !Exists_exists. done.
Qed.

(** ** probe_disk *)

Ltac msg_in := vm_compute; solve [repeat constructor].
Ltac msg_not_in :=
  let X := fresh in
  intros X; vm_compute in X;
  repeat (apply elem_of_cons in X as [X|X]; [discriminate X|]);
  by apply elem_of_nil in X.

Ltac run_infer E0 Es0 E1 Es1 :=
  unfold infer_geometry;
  rewrite E0; cbn [bind]; rewrite Es0; cbn [bind];
  rewrite E1; cbn [bind]; rewrite Es1; cbn [bind].

Lemma infer_geometry_fatal disk side0 side1 sec0 sec1 :
  reference_cylinder disk side0 side1 sec0 sec1 →
  log_cyl sec0 = phys_cyl side0 * 2 →
  infer_geometry disk
  = Die (if probed side0 || probed side1 then msg_80T_in_40T
         else msg_unreadable).
Proof.
  intros [E0 Es0 E1 Es1 Hc] Hl. run_infer E0 Es0 E1 Es1.
  destruct (probed side0), (probed side1); simpl; try done;
    repeat case_decide; simpl; try done; lia.
Qed.

Lemma infer_geometry_doublestep disk side0 side1 sec0 sec1 :
  reference_cylinder disk side0 side1 sec0 sec1 →
  log_cyl sec0 * 2 = phys_cyl side0 →
  probed side0 || probed side1 = true →
  ∃ d out, infer_geometry disk = Ret (d, out) ∧ cyl_step d = 2
           ∧ msg_doublestep ∈ out.
Proof.
  intros [E0 Es0 E1 Es1 Hc] Hl Hp. run_infer E0 Es0 E1 Es1.
  destruct (probed side0), (probed side1); simpl in *; try done;
    repeat case_decide; cbn [bind]; try lia;
    (eexists _, _; split; [done|split; [done|]]); msg_in.
Qed.

Lemma infer_geometry_head1_only disk side0 side1 sec0 sec1 :
  reference_cylinder disk side0 side1 sec0 sec1 →
  probed side0 = false → probed side1 = true →
  (infer_geometry disk = Die msg_80T_in_40T ∧ log_cyl sec0 = 4)
  ∨ (∃ d out, infer_geometry disk = Ret (d, out)
       ∧ num_phys_heads d = num_phys_heads disk
       ∧ (msg_single_sided ∉ out)
       ∧ (msg_double_sided ∈ out ∨ msg_separate_sides ∈ out)
       ∧ (log_cyl sec0 = 0xFF →
            d = disk ∧ (msg_doublestep ∉ out) ∧ msg_mismatch ∈ out)).
Proof.
  intros [E0 Es0 E1 Es1 Hc] Hp0 Hp1. run_infer E0 Es0 E1 Es1.
  rewrite Hp0, Hp1. simpl.
  destruct (decide (log_head sec0 = 0 ∧ log_head sec1 = 0)) as [Hh|Hh];
    cbn [bind];
    (destruct (decide (log_cyl sec0 * 2 = phys_cyl side0));
     [ | destruct (decide (log_cyl sec0 = phys_cyl side0 * 2));
         [ | destruct (decide (log_cyl sec0 ≠ phys_cyl side0)) ] ]).
  all: try (left; split; [done|lia]).
  all: right; eexists _, _; split; [done|]; split; [done|].
  all: split; [msg_not_in|].
  all: split; [first [left; msg_in | right; msg_in]|].
  all: intros E; try lia.
  all: split; [done|]; split; [msg_not_in|msg_in].
Qed.

(** No line but the doublestepping one comes with a change of
    [cyl_step]. *)
Lemma infer_geometry_cyl_step disk d out :
  infer_geometry disk = Ret (d, out) →
  msg_doublestep ∉ out → cyl_step d = cyl_step disk.
Proof.
  unfold infer_geometry. intros E Hout.
  destruct (track_at disk 2 0) as [side0| |]; [|done..]. cbn [bind] in E.
  destruct (array_get (sectors side0) 0) as [sec0| |]; [|done..].
  cbn [bind] in E.
  destruct (track_at disk 2 1) as [side1| |]; [|done..]. cbn [bind] in E.
  destruct (array_get (sectors side1) 0) as [sec1| |]; [|done..].
  cbn [bind] in E.
  destruct (probed side0), (probed side1); simpl in E;
    repeat case_decide; cbn [bind] in E; try done;
    injection E as <- <-; try done;
    exfalso; apply Hout; msg_in.
Qed.

(** ** Sector status *)

(** ** What a probe keeps of the sectors

    A property of sectors that does not depend on the logical address
    survives the ID reads and the extraction; after [probe_track] it
    holds of every sector as soon as it holds of a freed one. *)

Section probe_keeps.
Context `{disk_h} {W : Type} `{Controller W} (args : args_t).
Context (P : sector_t → Prop).
Hypothesis P_addr : ∀ c h r s, P s → P (set_log_addr c h r s).

Lemma track_readid_keeps t w ok t' w' :
  track_readid args t w = Ret (ok, t', w') →
  Forall P (sectors t) → Forall P (sectors t').
Proof.
  unfold track_readid. case_decide; [done|]. intros E Ht.
  apply bind_Ret_inv in E as [[[ok1 r] w1] [E1 E]].
  destruct ok1; simpl in E; [|by injection E as <- <- <-].
  bind_inv E. case_decide; [done|]. injection E as <- <- <-. simpl.
  eapply array_set_Forall; [done..|]. apply P_addr.
  by eapply (array_get_Forall P).
Qed.

Lemma detect_mode_keeps modes t w ok t' w' :
  detect_mode args modes t w = Ret (ok, t', w') →
  Forall P (sectors t) → Forall P (sectors t').
Proof.
  revert t w. induction modes as [|mode modes IH]; intros t w E Ht; simpl in E.
  - by injection E as <- <- <-.
  - apply bind_Ret_inv in E as [[[ok1 t1] w1] [E1 E]].
    apply track_readid_keeps in E1; [|done].
    destruct ok1; [by injection E as <- <- <-|]. eauto.
Qed.

Lemma sample_ids_keeps n t w ok t' w' :
  sample_ids args n t w = Ret (ok, t', w') →
  Forall P (sectors t) → Forall P (sectors t').
Proof.
  revert t w. induction n as [|n IH]; intros t w E Ht; simpl in E.
  - by injection E as <- <- <-.
  - apply bind_Ret_inv in E as [[[ok1 t1] w1] [E1 E]].
    apply track_readid_keeps in E1; [|done].
    destruct ok1; simpl in E; [|by injection E as <- <- <-]. eauto.
Qed.

Lemma extract_rotation_keeps t t' :
  extract_rotation t = Ret (Some t') →
  Forall P (sectors t) → Forall P (sectors t').
Proof.
  unfold extract_rotation. intros E Ht.
  apply bind_Ret_inv in E as [[end_sec end_pos] [E1 E]].
  apply bind_Ret_inv in E as [found [E2 E]].
  destruct found as [start_pos|]; [|done]. injection E as <-.
  simpl. unfold memmove_sectors. apply Forall_app. split.
  - by apply Forall_take, Forall_drop.
  - by apply Forall_drop.
Qed.

Lemma probe_track_keeps t w ok t' w' :
  (∀ s, P (free_sector s)) →
  probe_track args t w = Ret (ok, t', w') → Forall P (sectors t').
Proof.
  unfold probe_track. intros Hfree E.
  apply bind_Ret_inv in E as [[[ok1 t1] w1] [E1 E]].
  apply detect_mode_keeps in E1;
    [|simpl; apply Forall_fmap, Forall_true; exact Hfree].
  destruct ok1; cbn [negb] in E; [|by injection E as <- <- <-].
  apply bind_Ret_inv in E as [[[ok2 t2] w2] [E2 E]].
  apply sample_ids_keeps in E2; [|done].
  destruct ok2; cbn [negb] in E; [|by injection E as <- <- <-].
  apply bind_Ret_inv in E as [found [E3 E]].
  destruct found as [t3|]; [|by injection E as <- <- <-].
  apply extract_rotation_keeps in E3; [|done].
  apply bind_Ret_inv in E as [[[lo hi] c] [E4 E]].
  destruct (_ && _); [done|]. by injection E as <- <- <-.
Qed.
End probe_keeps.

Section invariant.
Context `{disk_h} {W : Type} `{Controller W} (args : args_t).

Lemma init_track_missing cyl head : all_missing (init_track cyl head).
Proof.
  unfold all_missing, init_track. simpl. apply Forall_fmap, Forall_true. done.
Qed.

Lemma free_track_missing t : all_missing (free_track t).
Proof.
  unfold all_missing, free_track. simpl. apply Forall_fmap, Forall_true. done.
Qed.

Lemma copy_track_layout_missing src t t' :
  copy_track_layout src t = Ret t' → all_missing t → all_missing t'.
Proof.
  unfold copy_track_layout. case_decide; [by intros [= <-]|].
  intros E _. revert E. apply for_loop_preserves.
  - intros i s s' E Hs. bind_inv E. injection E as <-.
    unfold all_missing in *. simpl.
    eapply array_set_Forall; [done..|]. simpl.
    eapply (array_get_Forall (λ s, status s = SECTOR_MISSING)); done.
  - apply free_track_missing.
Qed.

Lemma track_readid_missing t w ok t' w' :
  track_readid args t w = Ret (ok, t', w') → all_missing t → all_missing t'.
Proof. by apply track_readid_keeps. Qed.

Lemma probe_track_missing t w ok t' w' :
  probe_track args t w = Ret (ok, t', w') → all_missing t'.
Proof. by apply probe_track_keeps. Qed.

(** Every probe starts from no data at all: whatever a track held is
    freed, whether the probe succeeds or fails. *)
Lemma probe_track_frees_buffers t w ok t' w' :
  probe_track args t w = Ret (ok, t', w') →
  Forall (λ s, data s = None) (sectors t').
Proof. by apply probe_track_keeps. Qed.

Lemma read_sector_missing whole size i t ok w t' ok' w' :
  read_sector args whole size i (t, ok, w) = Ret (t', ok', w') →
  all_missing t → all_missing t'.
Proof.
  unfold read_sector. intros E Ht.
  apply bind_Ret_inv in E as [s [E1 E]].
  assert (Hs : status s = SECTOR_MISSING)
    by (eapply (array_get_Forall (λ s, status s = SECTOR_MISSING)); done).
  case_decide; [by injection E as <- <- <-|].
  destruct whole as [[lowest_id track_data]|].
  - bind_inv E. injection E as <- <- <-.
    unfold all_missing in *. simpl. by eapply array_set_Forall.
  - apply bind_Ret_inv in E as [[[ok1 buf] w1] [E2 E]].
    destruct ok1; simpl in E; bind_inv E; injection E as <- <- <-;
      unfold all_missing in *; simpl; by eapply array_set_Forall.
Qed.

Lemma read_track_missing t w ok t' w' :
  read_track args t w = Ret (ok, t', w') → all_missing t → all_missing t'.
Proof.
  unfold read_track. intros E Ht.
  apply bind_Ret_inv in E as [[[ok1 t1] w1] [E1 E]].
  assert (Ht1 : all_missing t1).
  { destruct (probed t); simpl in E1.
    - by injection E1 as <- <- <-.
    - by eapply probe_track_missing. }
  destruct ok1; cbn [negb] in E; [|by injection E as <- <- <-].
  apply bind_Ret_inv in E as [[[lo hi] c] [E2 E]].
  apply bind_Ret_inv in E as [[whole w2] [E3 E]].
  apply bind_Ret_inv in E as [[[t2 ok2] w3] [E4 E]].
  injection E as <- <- <-.
  revert E4. apply (for_loop_preserves (λ st, all_missing st.1.1)); [|done].
  intros i [[ta oka] wa] [[tb okb] wb] E Ha. simpl in *.
  by eapply read_sector_missing.
Qed.

Lemma read_track_retry_missing n t w t' w' :
  read_track_retry args n t w = Ret (t', w') →
  all_missing t → all_missing t'.
Proof.
  revert t w. induction n as [|n IH]; intros t w E Ht; simpl in E; [done|].
  apply bind_Ret_inv in E as [[[ok1 t1] w1] [E1 E]].
  apply read_track_missing in E1; [|done].
  destruct ok1; [by injection E as <- <-|].
  eapply IH; [done|]. done.
Qed.

Lemma core_reaches_missing t : core_reaches args t → all_missing t.
Proof.
  induction 1.
  - apply init_track_missing.
  - apply free_track_missing.
  - by eapply copy_track_layout_missing.
  - by eapply track_readid_missing.
  - by eapply probe_track_missing.
  - by eapply read_track_missing.
  - done.
  - by eapply read_track_retry_missing.
Qed.

(** A failed single-sector read leaves the sector without a buffer. *)
Lemma read_sector_failed size i t ok w sector buf w1 :
  array_get (sectors t) i = Ret sector → data sector = None →
  fd_read args t sector size w = Ret (false, buf, w1) →
  ∃ t', read_sector args None size i (t, ok, w) = Ret (t', false, w1)
        ∧ sectors t' !! Z.to_nat i = Some sector.
Proof.
  intros Es Hd Er. unfold read_sector. rewrite Es. cbn [bind].
  rewrite decide_False by (by rewrite Hd; intros ?).
  rewrite Er. cbn [bind negb].
  apply array_get_Ret in Es as [Hi Hs].
  rewrite array_set_Ret by (apply lookup_lt_Some in Hs; lia). cbn [bind].
  eexists. split; [done|]. simpl.
  rewrite list_lookup_insert_eq by (by eapply lookup_lt_Some).
  f_equal. destruct sector; simpl in *. by rewrite Hd.
Qed.

(** C2, as amended.  After every operation of the acquisition core a
    sector's status is still Missing, with or without a buffer: the
    core keeps track of what it has read in the data pointer alone.
    So status Good implies a non-null data pointer, but not the other
    way round.  A failed single-sector read leaves the sector without
    a buffer and with its status untouched. *)
Theorem sector_status_invariant t :
  core_reaches args t →
  (∀ s, s ∈ sectors t →
     status s = SECTOR_MISSING
     ∧ (status s = SECTOR_GOOD → data s ≠ None))
  ∧ (∀ size i ok w sector buf w1,
       array_get (sectors t) i = Ret sector → data sector = None →
       fd_read args t sector size w = Ret (false, buf, w1) →
       ∃ t' s', read_sector args None size i (t, ok, w)
                 = Ret (t', false, w1)
                ∧ sectors t' !! Z.to_nat i = Some s'
                ∧ data s' = None ∧ status s' = SECTOR_MISSING).
Proof.
  intros Ht. apply core_reaches_missing in Ht.
  unfold all_missing in Ht. rewrite Forall_forall in Ht. split.
  - intros s Hs. specialize (Ht s Hs). split; [done|]. by rewrite Ht.
  - intros size i ok w sector buf w1 Es Hd Er.
    destruct (read_sector_failed size i t ok w sector buf w1 Es Hd Er)
      as [t' [E Hs']].
    exists t', sector. split; [done|]. split; [done|]. split; [done|].
    apply Ht. apply array_get_Ret in Es as [_ Es].
    by eapply list_elem_of_lookup_2.
Qed.
End invariant.

Lemma same_shape_trans d1 d2 d3 :
  same_shape d1 d2 → same_shape d2 d3 → same_shape d1 d3.
Proof.
  unfold same_shape. intros (? & ? & ?) (? & ? & ?).
  repeat split; congruence.
Qed.

Lemma set_track_at_shape d cyl head t d' :
  set_track_at d cyl head t = Ret d' → same_shape d d'.
Proof.
  unfold set_track_at. intros E. bind_inv E. by injection E as <-.
Qed.

Section shape.
Context `{disk_h} {W : Type} `{Controller W} (args : args_t).

Lemma probe_sides_shape disk w disk1 w1 :
  probe_sides args disk w = Ret (disk1, w1) → same_shape disk disk1.
Proof.
  unfold probe_sides. intros E.
  apply (for_loop_preserves (λ st, same_shape disk st.1)) in E; [done| |done].
  intros i [d wa] [d' wb] Eb Hd. simpl in *.
  apply bind_Ret_inv in Eb as [t [E1 Eb]].
  apply bind_Ret_inv in Eb as [[[ok t'] w'] [E2 Eb]].
  apply bind_Ret_inv in Eb as [d2 [E3 Eb]]. injection Eb as <- <-.
  apply set_track_at_shape in E3. by eapply same_shape_trans.
Qed.

Lemma process_track_shape cyl head d img w d' img' w' :
  process_track args cyl head (d, img, w) = Ret (d', img', w') →
  same_shape d d'.
Proof.
  unfold process_track. intros E.
  apply bind_Ret_inv in E as [t [E1 E]].
  apply bind_Ret_inv in E as [t1 [E2 E]].
  apply bind_Ret_inv in E as [[t2 w2] [E3 E]].
  apply bind_Ret_inv in E as [d2 [E4 E]].
  apply set_track_at_shape in E4.
  destruct img as [bytes|].
  - apply bind_Ret_inv in E as [rec [E5 E]]. by injection E as <- <- <-.
  - by injection E as <- <- <-.
Qed.

(** With [cyl_step] zero the loop over the cylinders never gets past
    its first cylinder: whatever the number of iterations allowed, it
    has not completed. *)
Lemma cylinder_loop_stuck fuel cyl d img w r :
  cyl_step d = 0 → cyl < num_phys_cyls d →
  cylinder_loop args fuel cyl (d, img, w) = Ret r → r = None.
Proof.
  revert d img w. induction fuel as [|fuel IH]; intros d img w Hs Hc E;
    cbn [cylinder_loop] in E; cbn [fst] in E;
    rewrite decide_True in E by done.
  - by injection E as <-.
  - apply bind_Ret_inv in E as [[[d1 img1] w1] [E1 E]].
    assert (Hsh : same_shape d d1).
    { apply (for_loop_preserves (λ st, same_shape d st.1.1)) in E1;
        [done| |done].
      intros i [[da ia] wa] [[db ib] wb] Eb Hd. simpl in *.
      apply process_track_shape in Eb. by eapply same_shape_trans. }
    destruct Hsh as (Hc1 & Hh1 & Hs1). cbn [fst] in E.
    rewrite Hs1, Hs, Z.add_0_r in E.
    apply (IH d1 img1 w1); [lia|lia|done].
Qed.

Lemma setup_disk_cyl_step drive_tracks :
  cyl_step (setup_disk args drive_tracks) = 0.
Proof. unfold setup_disk. by case_decide. Qed.

(** ** A probe that read no sector id *)

Lemma track_readid_count t w ok t' w' :
  track_readid args t w = Ret (ok, t', w') →
  if ok then num_sectors t' = num_sectors t + 1 else t' = t.
Proof.
  unfold track_readid. case_decide; [done|]. intros E.
  apply bind_Ret_inv in E as [[[ok1 r] w1] [E1 E]].
  destruct ok1; cbn [negb] in E; [|by injection E as <- <- <-].
  bind_inv E. case_decide; [done|]. by injection E as <- <- <-.
Qed.

Lemma detect_mode_count modes t w ok t' w' :
  detect_mode args modes t w = Ret (ok, t', w') →
  if ok then num_sectors t' = num_sectors t + 1
  else sectors t' = sectors t ∧ num_sectors t' = num_sectors t.
Proof.
  revert t w. induction modes as [|mode modes IH]; intros t w E; simpl in E.
  - by injection E as <- <- <-.
  - apply bind_Ret_inv in E as [[[ok1 t1] w1] [E1 E]].
    apply track_readid_count in E1. destruct ok1.
    + by injection E as <- <- <-.
    + subst t1. apply IH in E. by destruct ok.
Qed.

Lemma sample_ids_count n t w ok t' w' :
  sample_ids args n t w = Ret (ok, t', w') →
  num_sectors t ≤ num_sectors t'.
Proof.
  revert t w. induction n as [|n IH]; intros t w E; simpl in E.
  - by injection E as <- <- <-.
  - apply bind_Ret_inv in E as [[[ok1 t1] w1] [E1 E]].
    apply track_readid_count in E1.
    destruct ok1; cbn [negb] in E.
    + apply IH in E. lia.
    + injection E as <- <- <-. subst t1. lia.
Qed.

Lemma scan_back_le t m pos q :
  scan_back t m pos = Ret (Some q) → 0 ≤ q ≤ Z.of_nat pos.
Proof.
  induction pos as [|pos IH]; cbn [scan_back]; intros E;
    apply bind_Ret_inv in E as [s [_ E]]; case_decide.
  - done.
  - injection E as <-. lia.
  - apply IH in E. lia.
  - injection E as <-. lia.
Qed.

Lemma extract_rotation_count t t' :
  extract_rotation t = Ret (Some t') → 1 ≤ num_sectors t'.
Proof.
  unfold extract_rotation. intros E.
  apply bind_Ret_inv in E as [[end_sec end_pos] [_ E]].
  apply bind_Ret_inv in E as [found [E2 E]].
  destruct found as [start_pos|]; [|done]. injection E as <-.
  unfold scan_backwards in E2. case_decide; [|done].
  apply scan_back_le in E2. simpl. lia.
Qed.

Lemma probe_track_no_id t w ok t' w' :
  probe_track args t w = Ret (ok, t', w') →
  num_sectors t' = 0 →
  ok = false ∧ sectors t' = free_sector <$> sectors t.
Proof.
  unfold probe_track. intros E Hz.
  apply bind_Ret_inv in E as [[[ok1 t1] w1] [E1 E]].
  apply detect_mode_count in E1. cbn [num_sectors sectors set_num_sectors
    set_sector_size_code free_track set_sectors set_track_status] in E1.
  destruct ok1; cbn [negb] in E.
  - exfalso.
    apply bind_Ret_inv in E as [[[ok2 t2] w2] [E2 E]].
    apply sample_ids_count in E2.
    destruct ok2; cbn [negb] in E; [|injection E as <- <- <-; lia].
    apply bind_Ret_inv in E as [found [E3 E]].
    destruct found as [t3|]; [|injection E as <- <- <-; lia].
    apply extract_rotation_count in E3.
    apply bind_Ret_inv in E as [[[lo hi] c] [E4 E]].
    destruct (_ && _); [done|]. injection E as <- <- <-. simpl in Hz. lia.
  - injection E as <- <- <-. by destruct E1.
Qed.
End shape.

(** ** Whole-track and per-sector reads *)

Lemma set_sectors_id t : set_sectors (sectors t) t = t.
Proof. by destruct t. Qed.

Lemma filled_prefix_step {A} (f : A → A) (l : list A) (i : nat) x :
  l !! i = Some x →
  <[i := f x]> ((f <$> take i l) ++ drop i l)
  = (f <$> take (S i) l) ++ drop (S i) l.
Proof.
  intros Hx. pose proof (lookup_lt_Some _ _ _ Hx) as Hi.
  rewrite insert_app_r_alt by (rewrite length_fmap, length_take; lia).
  rewrite length_fmap, length_take.
  replace (i - i `min` length l)%nat with O by lia.
  rewrite (drop_S l x i Hx). simpl.
  erewrite take_S_r by done. by rewrite fmap_app, <- app_assoc.
Qed.

Lemma filled_prefix_lookup {A} (f : A → A) (l : list A) (i : nat) :
  ((f <$> take i l) ++ drop i l) !! i = l !! i.
Proof.
  destruct (decide (i < length l)%nat).
  - rewrite lookup_app_r by (rewrite length_fmap, length_take; lia).
    rewrite length_fmap, length_take, lookup_drop. f_equal. lia.
  - rewrite !lookup_ge_None_2; [done|lia|].
    rewrite length_app, length_fmap, length_take, length_drop. lia.
Qed.

Lemma filled_prefix_length {A} (f : A → A) (l : list A) (i : nat) :
  length ((f <$> take i l) ++ drop i l) = length l.
Proof. rewrite length_app, length_fmap, length_take, length_drop. lia. Qed.

Lemma medium_read_Some (m : medium_t) r (k : nat) size :
  0 ≤ size →
  (∀ id, r ≤ id < r + Z.of_nat k →
     ∃ bytes, m id = Some bytes ∧ Z.of_nat (length bytes) = size) →
  ∃ all, medium_read m r k = Some all
    ∧ Z.of_nat (length all) = size * Z.of_nat k
    ∧ ∀ j, 0 ≤ j < Z.of_nat k →
        m (r + j)
        = Some (take (Z.to_nat size) (drop (Z.to_nat (size * j)) all)).
Proof.
  intros Hsize. revert r. induction k as [|k IH]; intros r Hm.
  - exists []. simpl. split; [done|]. split; [lia|]. intros; lia.
  - destruct (Hm r) as [bytes [Hb Hlen]]; [lia|].
    destruct (IH (r + 1)) as [rest [Hr [Hrl Hrj]]].
    { intros id Hid. apply Hm. lia. }
    exists (bytes ++ rest). cbn [medium_read]. rewrite Hb, Hr.
    split; [done|]. split; [rewrite length_app; lia|].
    intros j Hj. destruct (decide (j = 0)) as [->|Hj0].
    + rewrite Z.add_0_r, Hb. f_equal.
      replace (Z.to_nat (size * 0)) with O by lia.
      rewrite drop_0, take_app_le by lia. rewrite take_ge; [done|lia].
    + replace (r + j) with (r + 1 + (j - 1)) by lia. rewrite Hrj by lia.
      f_equal. rewrite drop_app_ge by nia. f_equal. f_equal. nia.
Qed.

Lemma contiguous_span (l : list Z) lo hi :
  contiguous_ids l → lo ∈ l → hi ∈ l → lo ≤ hi →
  hi - lo + 1 ≤ Z.of_nat (length l).
Proof.
  intros Hc Hlo Hhi Hle.
  assert (Hsub : seqZ lo (hi - lo + 1) ⊆+ l).
  { apply NoDup_submseteq; [apply NoDup_seqZ|].
    intros x Hx%elem_of_seqZ. apply (Hc lo hi x Hlo Hhi). lia. }
  apply submseteq_length in Hsub. rewrite length_seqZ in Hsub. lia.
Qed.

Lemma sector_bytes_pos code : 0 ≤ code → 0 < sector_bytes code.
Proof.
  intros. unfold sector_bytes. rewrite Z.shiftl_mul_pow2 by done.
  pose proof (Z.pow_pos_nonneg 2 code). lia.
Qed.

Lemma u8_small x : 0 ≤ x < 256 → u8 x = x.
Proof. intros. unfold u8. by apply Z.mod_small. Qed.

Section medium.
Context `{disk_h} (args : args_t) (m : medium_t).

Lemma medium_answer multi track mode sector buf_size w :
  data_mode track = Some mode →
  0 ≤ sector_size_code track ≤ 7 →
  fd_read (H0 := medium_controller m multi) args track sector buf_size w
  = let k := buf_size `div` sector_bytes (sector_size_code track) in
    let r :=
      if decide (multi = true ∨ k ≤ 1) then
        match medium_read m (log_sector sector) (Z.to_nat k) with
        | Some bytes => data_reply bytes
        | None => failed_reply
        end
      else failed_reply in
    match r with
    | Some r => Ret (st0_ok r, buffer_after r buf_size, S w)
    | None => Die "FD_READID failed"
    end.
Proof.
  intros Hmode Hcode. unfold fd_read. rewrite Hmode.
  unfold fdrawcmd, medium_controller, apply_data_mode.
  cbn [raw_cmd raw_length raw_flags raw_rate raw_track].
  rewrite (u8_small (sector_size_code track)) by lia.
  assert (Hc0 : ∀ rest : list Z,
    (if is_fm mode
     then match u8 (Z.land FD_READ (Z.lnot 128)) :: rest with
          | c0 :: rest0 => u8 (Z.land c0 (Z.lnot 64)) :: rest0
          | [] => []
          end
     else u8 (Z.land FD_READ (Z.lnot 128)) :: rest)
    = (if is_fm mode then 0x26 else 0x66) :: rest).
  { intros rest. by destruct (is_fm mode). }
  rewrite Hc0. cbv zeta.
  set (k := buf_size `div` sector_bytes (sector_size_code track)).
  assert (Hland : Z.land (if is_fm mode then 38 else 102) 31 = 6)
    by (by destruct (is_fm mode)).
  rewrite Hland.
  destruct (decide (multi = true ∨ k ≤ 1)) as [Hk|Hk].
  - rewrite decide_True by done.
    destruct (medium_read m (log_sector sector) (Z.to_nat k)); done.
  - rewrite decide_False by tauto. done.
Qed.

Lemma fd_read_medium multi track mode sector k w all :
  data_mode track = Some mode →
  0 ≤ sector_size_code track ≤ 7 → 0 ≤ k →
  medium_read m (log_sector sector) (Z.to_nat k) = Some all →
  Z.of_nat (length all) = sector_bytes (sector_size_code track) * k →
  multi = true ∨ k ≤ 1 →
  fd_read (H0 := medium_controller m multi) args track sector
    (sector_bytes (sector_size_code track) * k) w
  = Ret (true, all, S w).
Proof.
  intros Hmode Hcode Hk Hread Hlen Hmulti.
  rewrite (medium_answer multi track mode) by done. cbv zeta.
  pose proof (sector_bytes_pos (sector_size_code track)) as Hpos.
  rewrite Z.mul_comm, Z.div_mul by lia.
  rewrite decide_True by done. rewrite Hread. unfold data_reply.
  f_equal. f_equal. unfold buffer_after. cbn [raw_data].
  rewrite take_app_le by lia. rewrite take_ge; [done|lia].
Qed.

Lemma fd_read_medium_refused track mode sector k w :
  data_mode track = Some mode →
  0 ≤ sector_size_code track ≤ 7 → 1 < k →
  ∃ buf, fd_read (H0 := medium_controller m false) args track sector
           (sector_bytes (sector_size_code track) * k) w
         = Ret (false, buf, S w).
Proof.
  intros Hmode Hcode Hk.
  rewrite (medium_answer false track mode) by done. cbv zeta.
  pose proof (sector_bytes_pos (sector_size_code track)) as Hpos.
  rewrite Z.mul_comm, Z.div_mul by lia.
  rewrite decide_False by (intros [?|?]; [done|lia]).
  eexists. done.
Qed.
End medium.

Section equivalence.
Context `{disk_h} (args : args_t) (m : medium_t).

Lemma filled_id_in_range track lo i s :
  readable m track lo → 0 ≤ i < num_sectors track →
  sectors track !! Z.to_nat i = Some s →
  lo ≤ log_sector s < lo + num_sectors track.
Proof.
  intros [_ _ Hn _ _ Hc [Hlo Hmin] _ _] Hi Hs.
  rewrite Forall_forall in Hmin.
  assert (Hin : log_sector s ∈ ids_of track).
  { apply list_elem_of_lookup. exists (Z.to_nat i).
    rewrite ids_of_lookup by lia. by rewrite Hs. }
  pose proof (Hmin _ Hin).
  pose proof (contiguous_span _ lo (log_sector s) Hc Hlo Hin ltac:(lia)) as Hsp.
  rewrite ids_of_length in Hsp by lia. lia.
Qed.

Lemma whole_track_loop `{Controller W} track lo all (w : W) :
  readable m track lo →
  medium_read m lo (Z.to_nat (num_sectors track)) = Some all →
  Z.of_nat (length all)
    = sector_bytes (sector_size_code track) * num_sectors track →
  (∀ j, 0 ≤ j < num_sectors track →
     m (lo + j)
     = Some (take (Z.to_nat (sector_bytes (sector_size_code track)))
               (drop (Z.to_nat (sector_bytes (sector_size_code track) * j))
                  all))) →
  for_loop 0 (num_sectors track)
    (read_sector args (Some (lo, all))
       (sector_bytes (sector_size_code track))) (track, true, w)
  = Ret (set_sectors (filled m track (Z.to_nat (num_sectors track))) track,
         true, w).
Proof.
  intros Hrd Hall Hlen Hslices.
  pose proof (rd_count _ _ _ Hrd) as Hn.
  pose proof (sector_bytes_pos (sector_size_code track)
                ltac:(pose proof (rd_code _ _ _ Hrd); lia)) as Hpos.
  destruct (for_loop_inv
    (read_sector args (Some (lo, all))
       (sector_bytes (sector_size_code track)))
    (λ i st, st = (set_sectors (filled m track (Z.to_nat i)) track, true, w))
    0 (num_sectors track) (track, true, w)) as [st [E ->]]; [lia| | |done].
  { unfold filled. simpl. rewrite drop_0. by rewrite set_sectors_id. }
  intros i st Hi ->. unfold read_sector. cbn [sectors set_sectors].
  destruct (lookup_lt_is_Some_2 (sectors track) (Z.to_nat i)) as [s Hs]; [lia|].
  assert (array_get (filled m track (Z.to_nat i)) i = Ret s) as ->.
  { apply array_get_Ret. split; [lia|]. unfold filled.
    by rewrite filled_prefix_lookup. }
  cbn [bind].
  replace (Z.to_nat (i + 1)) with (S (Z.to_nat i)) by lia.
  pose proof (filled_prefix_step (fill m) _ _ _ Hs) as Hstep.
  fold (filled m track (Z.to_nat i)) in Hstep.
  fold (filled m track (S (Z.to_nat i))) in Hstep.
  destruct (data s) as [buf|] eqn:Hd.
  - rewrite decide_True by done. eexists. split; [done|].
    rewrite <- Hstep. unfold fill. rewrite Hd.
    rewrite list_insert_id; [done|]. unfold filled.
    by rewrite filled_prefix_lookup.
  - rewrite decide_False by (intros ?; done).
    pose proof (filled_id_in_range track lo i s Hrd Hi Hs) as Hid.
    unfold slice. rewrite decide_True by nia. cbn [bind].
    rewrite array_set_Ret
      by (unfold filled; rewrite filled_prefix_length; lia).
    cbn [bind]. eexists. split; [done|]. cbn [set_sectors sectors
      track_status data_mode phys_cyl phys_head num_sectors
      sector_size_code probed].
    rewrite <- Hstep. unfold fill. rewrite Hd.
    replace (m (log_sector s)) with (m (lo + (log_sector s - lo)))
      by (f_equal; lia).
    rewrite Hslices by lia. done.
Qed.

Lemma per_sector_loop track lo (w : nat) :
  readable m track lo →
  ∃ w', for_loop 0 (num_sectors track)
          (read_sector (H0 := medium_controller m false) args None
             (sector_bytes (sector_size_code track))) (track, true, w)
        = Ret (set_sectors (filled m track (Z.to_nat (num_sectors track)))
                 track, true, w').
Proof.
  intros Hrd.
  pose proof (rd_count _ _ _ Hrd) as Hn.
  pose proof (rd_code _ _ _ Hrd) as Hcode.
  destruct (rd_mode _ _ _ Hrd) as [mode Hmode].
  pose proof (sector_bytes_pos (sector_size_code track) ltac:(lia)) as Hpos.
  destruct (for_loop_inv
    (read_sector (H0 := medium_controller m false) args None
       (sector_bytes (sector_size_code track)))
    (λ i st, ∃ w', st = (set_sectors (filled m track (Z.to_nat i)) track,
                         true, w'))
    0 (num_sectors track) (track, true, w)) as [st [E [w' ->]]];
    [lia| | |by eauto].
  { exists w. unfold filled. simpl. rewrite drop_0. by rewrite set_sectors_id. }
  intros i st Hi [w1 ->]. unfold read_sector. cbn [sectors set_sectors].
  destruct (lookup_lt_is_Some_2 (sectors track) (Z.to_nat i)) as [s Hs]; [lia|].
  assert (array_get (filled m track (Z.to_nat i)) i = Ret s) as ->.
  { apply array_get_Ret. split; [lia|]. unfold filled.
    by rewrite filled_prefix_lookup. }
  cbn [bind].
  replace (Z.to_nat (i + 1)) with (S (Z.to_nat i)) by lia.
  pose proof (filled_prefix_step (fill m) _ _ _ Hs) as Hstep.
  fold (filled m track (Z.to_nat i)) in Hstep.
  fold (filled m track (S (Z.to_nat i))) in Hstep.
  destruct (data s) as [buf|] eqn:Hd.
  - rewrite decide_True by done. eexists. split; [done|]. exists w1.
    rewrite <- Hstep. unfold fill. rewrite Hd.
    rewrite list_insert_id; [done|]. unfold filled.
    by rewrite filled_prefix_lookup.
  - rewrite decide_False by (intros ?; done).
    pose proof (filled_id_in_range track lo i s Hrd Hi Hs) as Hid.
    destruct (rd_medium _ _ _ Hrd (log_sector s) Hid) as [bytes [Hb Hbl]].
    pose proof (fd_read_medium args m false
      (set_sectors (filled m track (Z.to_nat i)) track) mode s 1 w1 bytes)
      as Hread.
    cbn [set_sectors data_mode sector_size_code] in Hread.
    rewrite Z.mul_1_r in Hread. rewrite Hread; [|done|lia|lia| |lia|right; lia].
    2:{ change (Z.to_nat 1) with 1%nat. cbn [medium_read].
        rewrite Hb. by rewrite app_nil_r. }
    cbn [bind negb].
    rewrite array_set_Ret
      by (unfold filled; rewrite filled_prefix_length; lia).
    cbn [bind]. eexists. split; [done|]. exists (S w1).
    cbn [set_sectors sectors track_status data_mode phys_cyl phys_head
         num_sectors sector_size_code probed].
    rewrite <- Hstep. unfold fill. by rewrite Hd, Hb.
Qed.

Lemma read_track_scan track lo :
  readable m track lo →
  ∃ sl sh, track_scan_sectors track = Ret (Some sl, Some sh, true)
           ∧ log_sector sl = lo.
Proof.
  intros Hrd. pose proof (rd_count _ _ _ Hrd) as Hn.
  pose proof (rd_ids _ _ _ Hrd) as Hids. rewrite Forall_forall in Hids.
  destruct (rd_lowest _ _ _ Hrd) as [Hlo Hmin].
  rewrite Forall_forall in Hmin.
  pose proof (rd_above_zero _ _ _ Hrd) as Hpos.
  apply Exists_exists in Hpos as [x [Hx Hx0]].
  destruct (track_scan_sectors_spec track) as (l & h & c & E & Hc & Hl & Hh);
    [|lia|done|].
  { specialize (Hids _ Hlo). lia. }
  assert (c = true) as -> by (apply Hc, (rd_contiguous _ _ _ Hrd)).
  destruct l as [sl|]; [|by rewrite Hl in Hlo; apply elem_of_nil in Hlo].
  destruct h as [sh|]; [|specialize (Hh _ Hx); lia].
  exists sl, sh. split; [done|]. destruct Hl as [Hin Hle].
  specialize (Hmin _ Hin). specialize (Hle _ Hlo). lia.
Qed.

(** C8.  On a controller that serves a medium, reading a track whose
    layout is known gives every sector the same payload whether the
    controller serves the whole-track transfer (one command, sliced at
    (log_sector - lowest) * sector_size) or refuses it, so that every
    sector is read on its own: in both runs a sector without a buffer
    ends with the bytes the medium holds under its logical id, and a
    sector that had a buffer keeps it. *)
Theorem whole_track_equals_per_sector track lo (w : nat) :
  readable m track lo →
  ∃ t' w2,
    read_track (H0 := medium_controller m true) args track w
      = Ret (true, t', S w)
    ∧ read_track (H0 := medium_controller m false) args track w
      = Ret (true, t', w2)
    ∧ sectors t' = filled m track (Z.to_nat (num_sectors track))
    ∧ ∀ i s, (i < Z.to_nat (num_sectors track))%nat →
        sectors track !! i = Some s →
        ∃ s', sectors t' !! i = Some s' ∧ log_sector s' = log_sector s
              ∧ data s' = match data s with
                          | Some buf => Some buf
                          | None => m (log_sector s)
                          end.
Proof.
  intros Hrd. pose proof (rd_count _ _ _ Hrd) as Hn.
  pose proof (rd_code _ _ _ Hrd) as Hcode.
  destruct (rd_mode _ _ _ Hrd) as [mode Hmode].
  destruct (read_track_scan track lo Hrd) as (sl & sh & Escan & Hsl).
  pose proof (sector_bytes_nonneg (sector_size_code track)) as Hsz.
  destruct (medium_read_Some m lo (Z.to_nat (num_sectors track))
              (sector_bytes (sector_size_code track)) Hsz)
    as (all & Hall & Hlen & Hslices).
  { intros id Hid. apply (rd_medium _ _ _ Hrd). lia. }
  rewrite Z2Nat.id in Hlen, Hslices by lia.
  exists (set_sectors (filled m track (Z.to_nat (num_sectors track))) track).
  assert (Hwhole : ∀ multi, multi = true ∨ num_sectors track ≤ 1 →
    read_track (H0 := medium_controller m multi) args track w
    = Ret (true,
           set_sectors (filled m track (Z.to_nat (num_sectors track))) track,
           S w)).
  { intros multi Hmulti. unfold read_track.
    rewrite (rd_probed _ _ _ Hrd). cbn [negb bind]. rewrite Escan. cbn [bind].
    rewrite (fd_read_medium args m multi track mode sl (num_sectors track)
               w all); [|done|lia|lia|by rewrite Hsl|done|done].
    cbn [bind]. rewrite Hsl.
    rewrite (whole_track_loop track lo all (S w) Hrd Hall Hlen Hslices).
    done. }
  destruct (decide (num_sectors track ≤ 1)) as [Hone|Hmany].
  - exists (S w). split; [apply Hwhole; by left|].
    split; [apply Hwhole; by right|]. split; [done|].
    intros i s Hi Hs. cbn [sectors set_sectors]. unfold filled.
    exists (fill m s). split.
    + rewrite lookup_app_l by (rewrite length_fmap, length_take; lia).
      by rewrite list_lookup_fmap, lookup_take_lt, Hs by lia.
    + unfold fill. by destruct (data s) eqn:Hd.
  - destruct (per_sector_loop track lo (S w) Hrd) as [w2 Hloop].
    exists w2. split; [apply Hwhole; by left|]. split; [|split; [done|]].
    + unfold read_track.
      rewrite (rd_probed _ _ _ Hrd). cbn [negb bind]. rewrite Escan. cbn [bind].
      destruct (fd_read_medium_refused args m track mode sl
                  (num_sectors track) w Hmode Hcode ltac:(lia)) as [buf ->].
      cbn [bind]. rewrite Hloop. done.
    + intros i s Hi Hs. cbn [sectors set_sectors]. unfold filled.
      exists (fill m s). split.
      * rewrite lookup_app_l by (rewrite length_fmap, length_take; lia).
        by rewrite list_lookup_fmap, lookup_take_lt, Hs by lia.
      * unfold fill. by destruct (data s) eqn:Hd.
Qed.
End equivalence.


(** A probe that read no id on a fresh track leaves the sentinel in its
    first sector. *)
Lemma probe_track_no_id_sentinel `{disk_h} {W : Type} `{Controller W}
    (args : args_t) cyl head w ok t' w' :
  0 < MAX_SECS →
  probe_track args (init_track cyl head) w = Ret (ok, t', w') →
  num_sectors t' = 0 →
  ok = false ∧ log_cyl <$> sectors t' !! 0%nat = Some 0xFF.
Proof.
  intros HM E Hz. destruct (probe_track_no_id args _ _ _ _ _ E Hz) as [-> ->].
  split; [done|]. unfold init_track, EMPTY_TRACK. simpl.
  rewrite <- !list_fmap_compose, list_lookup_fmap.
  rewrite lookup_replicate_2 by lia. done.
Qed.

(** Sector ids come from the controller unchecked: under a header with
    64 sectors to the track, an id of 200 in the sample goes through the
    probe as far as [track_scan_sectors], which writes outside [seen]. *)
Lemma unchecked_id_reaches_scan :
  probe_track (H := small) no_options (init_track (H := small) 2 0) wide_tape
  = Undef.
Proof. vm_compute. reflexivity. Qed.


(** * The remaining claims *)

Section scan_bounds.
Context `{disk_h}.

(** C9.  With every sampled id below [MAX_SECS], [track_scan_sectors]
    stays inside its [seen] array and reports contiguous exactly when
    every id between two observed ids (so between the lowest and the
    highest) is observed.  The precondition is needed: with a sampled
    id at or above [MAX_SECS] the write to [seen] is out of bounds. *)
Theorem track_scan_sectors_bounds track :
  0 ≤ MAX_SECS →
  0 ≤ num_sectors track ≤ Z.of_nat (length (sectors track)) →
  Forall (λ id, 0 ≤ id) (ids_of track) →
  (Forall (λ id, id < MAX_SECS) (ids_of track) →
     ∃ lowest highest contiguous,
       track_scan_sectors track = Ret (lowest, highest, contiguous)
       ∧ (contiguous = true ↔ contiguous_ids (ids_of track)))
  ∧ (Exists (λ id, MAX_SECS ≤ id) (ids_of track) →
       track_scan_sectors track = Undef).
Proof.
  intros HM Hn Hpos. rewrite Forall_forall in Hpos. split.
  - intros Hlt. rewrite Forall_forall in Hlt.
    destruct (track_scan_sectors_spec track HM Hn)
      as (lo & hi & c & E & Hc & _).
    { intros id Hid. split; [by apply Hpos|by apply Hlt]. }
    by exists lo, hi, c.
  - intros [id [Hid Hbig]]%Exists_exists.
    apply list_elem_of_lookup in Hid as [k Hk].
    pose proof (lookup_lt_Some _ _ _ Hk) as Hkn.
    rewrite ids_of_length in Hkn by done.
    rewrite ids_of_lookup in Hk by done.
    destruct (sectors track !! k) as [s|] eqn:Hs; [|done].
    injection Hk as Hk.
    unfold track_scan_sectors, for_loop.
    rewrite (scan_loop_undef track _ 0 scan_init); [done|lia|lia| |].
    + simpl. by rewrite length_replicate.
    + exists (Z.of_nat k), s. rewrite Nat2Z.id. split; [lia|].
      split; [done|]. lia.
Qed.
End scan_bounds.

Section probe_disk_claims.
Context `{disk_h} {W : Type} `{Controller W} (args : args_t).

(** C6.  At the reference cylinder, after the two probes: if head 0's
    first sector's logical cylinder is twice the physical cylinder,
    [probe_disk] dies (with "Can't read this disk" when a side was
    probed); if twice the logical cylinder is the physical cylinder and
    a side was probed, it sets [cyl_step] to 2 and says so. *)
Theorem probe_disk_cylinder_step disk w disk1 w1 side0 side1 sec0 sec1 :
  probe_sides args disk w = Ret (disk1, w1) →
  reference_cylinder disk1 side0 side1 sec0 sec1 →
  (log_cyl sec0 = phys_cyl side0 * 2 →
     probe_disk args disk w
     = Die (if probed side0 || probed side1 then msg_80T_in_40T
            else msg_unreadable))
  ∧ (log_cyl sec0 * 2 = phys_cyl side0 →
     probed side0 || probed side1 = true →
     ∃ d out, probe_disk args disk w = Ret (d, out, w1)
              ∧ cyl_step d = 2 ∧ msg_doublestep ∈ out).
Proof.
  intros Hsides Hrc. unfold probe_disk. rewrite Hsides. cbn [bind]. split.
  - intros Hl. by rewrite (infer_geometry_fatal _ _ _ _ _ Hrc Hl).
  - intros Hl Hp.
    destruct (infer_geometry_doublestep _ _ _ _ _ Hrc Hl Hp)
      as (d & out & -> & Hd & Hout).
    by exists d, out.
Qed.

(** C10, as amended.  If at the reference cylinder the probe of head 0
    failed and the probe of head 1 succeeded, [probe_disk] never calls
    the disk single-sided and leaves [num_phys_heads] as it was: it
    takes one of the double-sided branches.  Cylinder-step inference
    then reads head 0's first sector; where that still holds the unset
    sentinel 0xFF, it prints the mismatch warning and leaves [cyl_step]
    unchanged. *)
Theorem probe_disk_head1_only disk w disk1 w1 side0 side1 sec0 sec1 :
  probe_sides args disk w = Ret (disk1, w1) →
  reference_cylinder disk1 side0 side1 sec0 sec1 →
  probed side0 = false → probed side1 = true →
  (probe_disk args disk w = Die msg_80T_in_40T ∧ log_cyl sec0 = 4)
  ∨ (∃ d out, probe_disk args disk w = Ret (d, out, w1)
       ∧ num_phys_heads d = num_phys_heads disk
       ∧ (msg_single_sided ∉ out)
       ∧ (msg_double_sided ∈ out ∨ msg_separate_sides ∈ out)
       ∧ (log_cyl sec0 = 0xFF →
            cyl_step d = cyl_step disk
            ∧ (msg_doublestep ∉ out) ∧ msg_mismatch ∈ out)).
Proof.
  intros Hsides Hrc Hp0 Hp1. unfold probe_disk. rewrite Hsides. cbn [bind].
  destruct (probe_sides_shape args _ _ _ _ Hsides) as (_ & Hheads & Hstep).
  destruct (infer_geometry_head1_only _ _ _ _ _ Hrc Hp0 Hp1)
    as [[-> Hl]|(d & out & -> & Hd & Hs & Hds & Hff)].
  - by left.
  - right. exists d, out. split; [done|]. split; [congruence|].
    split; [done|]. split; [done|]. intros Hl.
    destruct (Hff Hl) as (-> & ? & ?). done.
Qed.
End probe_disk_claims.

(** C1.  A first attempt reads sector 1 of a track and fails on sector 2;
    the retry re-probes, which frees the buffer of sector 1, and reads
    the track again: the sector ends with the bytes of the second read,
    the first buffer is gone, and the whole script has been played. *)
Theorem retry_discards_read_sectors :
  let t0 := init_track (H := roomy) 0 0 in
  on_result (λ '(ok, t, _), (ok, data_at t 0, data_at t 1))
    (read_track (H := roomy) no_options t0 flaky_tape)
  = Ret (false, Some bytes_A, None)
  ∧ on_result (λ '(ok, t, _), (ok, data_at t 0))
      (let* (_, t1, w1) := read_track (H := roomy) no_options t0 flaky_tape in
       probe_track (H := roomy) no_options (set_probed false t1) w1)
    = Ret (true, None)
  ∧ on_result (λ '(t, w), (data_at t 0, data_at t 1, length (pending w)))
      (read_track_retry (H := roomy) no_options max_tries t0 flaky_tape)
    = Ret (Some bytes_B, Some bytes_C, O)
  ∧ bytes_A ≠ bytes_B.
Proof.
  cbv zeta. split; [vm_compute; reflexivity|].
  split; [vm_compute; reflexivity|].
  split; [vm_compute; reflexivity|]. vm_compute. discriminate.
Qed.

(** C3.  On an ordinary double-sided disk, whose logical cylinders are
    the physical ones, [cyl_step] is 0 after [init_disk] and
    [probe_disk], not 1: nothing ever sets it but the doublestepping
    branch.  The loop over the cylinders then adds 0 to [cyl]. *)
Theorem cyl_step_zero_on_ordinary_disk :
  cyl_step (init_disk (H := roomy)) = 0
  ∧ on_result (λ '(d, out, _), (cyl_step d, 0 + cyl_step d, out))
      (probe_disk (H := roomy) no_options fresh_disk ordinary_tape)
    = Ret (0, 0, [msg_double_sided]).
Proof. split; vm_compute; reflexivity. Qed.

(** C5.  The lowest id is the first id of the sample and occurs only
    there: the backward scan starts at [track->sectors[-1]], outside the
    array, before it has looked at [start_pos < 0]. *)
Theorem lowest_only_first_is_undefined :
  probe_track (H := roomy) no_options (init_track (H := roomy) 2 0)
    rising_tape
  = Undef.
Proof. vm_compute. reflexivity. Qed.


(** * The claims on concrete inputs *)

Ltac compute_eq := vm_compute; reflexivity.

Lemma ids_of_gap_track : ids_of gap_track = [4; 1; 2; 5].
Proof. compute_eq. Qed.
Lemma ids_of_wide_track : ids_of wide_track = [1; 200; 2].
Proof. compute_eq. Qed.

Lemma track_scan_sectors_bounds_witness :
  (0 ≤ MAX_SECS (disk_h := roomy)
   ∧ 0 ≤ num_sectors gap_track ≤ Z.of_nat (length (sectors gap_track))
   ∧ Forall (λ id, 0 ≤ id) (ids_of gap_track)
   ∧ Forall (λ id, id < MAX_SECS (disk_h := roomy)) (ids_of gap_track)
   ∧ ∃ lowest highest contiguous,
       track_scan_sectors (H := roomy) gap_track
       = Ret (lowest, highest, contiguous)
       ∧ (contiguous = true ↔ contiguous_ids (ids_of gap_track)))
  ∧ (0 ≤ MAX_SECS (disk_h := small)
     ∧ 0 ≤ num_sectors wide_track ≤ Z.of_nat (length (sectors wide_track))
     ∧ Forall (λ id, 0 ≤ id) (ids_of wide_track)
     ∧ Exists (λ id, MAX_SECS (disk_h := small) ≤ id) (ids_of wide_track)
     ∧ track_scan_sectors (H := small) wide_track = Undef).
Proof.
  assert (H1 : 0 ≤ MAX_SECS (disk_h := roomy)) by (vm_compute; discriminate).
  assert (H2 : 0 ≤ num_sectors gap_track
               ≤ Z.of_nat (length (sectors gap_track)))
    by (vm_compute; split; discriminate).
  assert (H3 : Forall (λ id, 0 ≤ id) (ids_of gap_track))
    by (rewrite ids_of_gap_track; repeat constructor; lia).
  assert (H4 : Forall (λ id, id < MAX_SECS (disk_h := roomy))
                 (ids_of gap_track))
    by (rewrite ids_of_gap_track; repeat constructor; vm_compute; reflexivity).
  assert (G1 : 0 ≤ MAX_SECS (disk_h := small)) by (vm_compute; discriminate).
  assert (G2 : 0 ≤ num_sectors wide_track
               ≤ Z.of_nat (length (sectors wide_track)))
    by (vm_compute; split; discriminate).
  assert (G3 : Forall (λ id, 0 ≤ id) (ids_of wide_track))
    by (rewrite ids_of_wide_track; repeat constructor; lia).
  assert (G4 : Exists (λ id, MAX_SECS (disk_h := small) ≤ id)
                 (ids_of wide_track)).
  { rewrite ids_of_wide_track. apply Exists_cons_tl, Exists_cons_hd.
    vm_compute. discriminate. }
  split.
  - split; [exact H1|]. split; [exact H2|]. split; [exact H3|].
    split; [exact H4|].
    exact (proj1 (track_scan_sectors_bounds (H := roomy) gap_track H1 H2 H3)
             H4).
  - split; [exact G1|]. split; [exact G2|]. split; [exact G3|].
    split; [exact G4|].
    exact (proj2 (track_scan_sectors_bounds (H := small) wide_track G1 G2 G3)
             G4).
Defined.

(** The nine-sector sample of [track9]. *)
Lemma track9_cyclic : cyclic_sample rot9 0 track9.
Proof.
  split.
  - discriminate.
  - lia.
  - vm_compute. discriminate.
  - vm_compute. discriminate.
  - compute_eq.
Defined.

Lemma rot9_lowest_once : lowest_once rot9 3 1.
Proof.
  split; [reflexivity|]. intros j x Hj.
  do 9 (destruct j as [|j]; [injection Hj as <-; split; [lia|intros; lia] |]).
  discriminate Hj.
Defined.

Lemma rot9_in_range : Forall (λ x, x ≤ MAX_SECS (disk_h := roomy)) rot9.
Proof. repeat constructor; vm_compute; discriminate. Defined.

Lemma extract_rotation_cyclic_witness :
  cyclic_sample rot9 0 track9
  ∧ lowest_once rot9 3 1
  ∧ Forall (λ x, x ≤ MAX_SECS (disk_h := roomy)) rot9
  ∧ ∃ t' start,
      extract_rotation (H := roomy) track9 = Ret (Some t')
      ∧ num_sectors t' = Z.of_nat (length rot9)
      ∧ ids_of t' = rotate 3 rot9
      ∧ lowest_last (ids_of track9) (num_sectors track9) 1
          (start + Z.of_nat (length rot9))
      ∧ 0 ≤ start ∧ ids_of track9 !! Z.to_nat start = Some 1
      ∧ take (length rot9) (sectors t')
        = take (length rot9) (drop (Z.to_nat start) (sectors track9)).
Proof.
  split; [exact track9_cyclic|]. split; [exact rot9_lowest_once|].
  split; [exact rot9_in_range|].
  exact (extract_rotation_cyclic (H := roomy) rot9 0 3 1 track9
           track9_cyclic rot9_lowest_once rot9_in_range).
Defined.

(** C4 as the claim words it fails on the same sample: what is kept
    starts at the earlier occurrence of the lowest id (1 2 ... 9), not
    immediately after it (2 ... 9 1). *)
Lemma rotation_not_after_earlier_occurrence :
  cyclic_sample rot9 0 track9
  ∧ on_result (fmap ids_of) (extract_rotation (H := roomy) track9)
    = Ret (Some [1; 2; 3; 4; 5; 6; 7; 8; 9])
  ∧ rotation_after_earlier (ids_of track9)
    = Some [2; 3; 4; 5; 6; 7; 8; 9; 1]
  ∧ ¬ (∀ t', extract_rotation (H := roomy) track9 = Ret (Some t') →
         Some (ids_of t') = rotation_after_earlier (ids_of track9)).
Proof.
  split; [exact track9_cyclic|].
  assert (E : on_result (fmap ids_of) (extract_rotation (H := roomy) track9)
              = Ret (Some [1; 2; 3; 4; 5; 6; 7; 8; 9])) by compute_eq.
  assert (R : rotation_after_earlier (ids_of track9)
              = Some [2; 3; 4; 5; 6; 7; 8; 9; 1]) by compute_eq.
  split; [exact E|]. split; [exact R|]. intros Hclaim.
  destruct (extract_rotation (H := roomy) track9) as [[t'|]| |] eqn:Ex;
    try discriminate E.
  specialize (Hclaim t' eq_refl). rewrite R in Hclaim.
  simpl in E. injection E as E. rewrite E in Hclaim. discriminate Hclaim.
Qed.


Lemma remapped_track_buffers : buffers_sized remapped_track.
Proof. unfold buffers_sized. vm_compute. repeat constructor. Defined.

Lemma write_imd_track_maps_witness :
  data_mode remapped_track = Some mfm_250k
  ∧ 0 ≤ num_sectors remapped_track
      ≤ Z.of_nat (length (sectors remapped_track))
  ∧ 0 ≤ phys_head remapped_track < 64
  ∧ buffers_sized remapped_track
  ∧ need_cyl_map remapped_track = true
  ∧ need_head_map remapped_track = false
  ∧ write_imd_track remapped_track
    = Ret [2; 2; 0x80; 3; 0; 1; 2; 3; 2; 5; 2; 0; 0; 0]
  ∧ ∃ b0 b1 b2 b3 b4 records,
      let S := take (Z.to_nat (num_sectors remapped_track))
                 (sectors remapped_track) in
      write_imd_track remapped_track
      = Ret ([b0; b1; b2; b3; b4]
             ++ (log_sector <$> S)
             ++ (if need_cyl_map remapped_track then log_cyl <$> S else [])
             ++ (if need_head_map remapped_track then log_head <$> S else [])
             ++ records)
      ∧ imd_sector_records remapped_track = Ret records
      ∧ Z.testbit b2 7 = need_cyl_map remapped_track
      ∧ Z.testbit b2 6 = need_head_map remapped_track
      ∧ (need_cyl_map remapped_track = true
         ↔ ∃ s, s ∈ S ∧ log_cyl s ≠ phys_cyl remapped_track)
      ∧ (need_head_map remapped_track = true
         ↔ ∃ s, s ∈ S ∧ log_head s ≠ phys_head remapped_track).
Proof.
  assert (H1 : data_mode remapped_track = Some mfm_250k) by reflexivity.
  assert (H2 : 0 ≤ num_sectors remapped_track
               ≤ Z.of_nat (length (sectors remapped_track)))
    by (vm_compute; split; discriminate).
  assert (H3 : 0 ≤ phys_head remapped_track < 64)
    by (vm_compute; split; [discriminate|reflexivity]).
  split; [exact H1|]. split; [exact H2|]. split; [exact H3|].
  split; [exact remapped_track_buffers|].
  split; [compute_eq|]. split; [compute_eq|]. split; [compute_eq|].
  exact (write_imd_track_maps remapped_track mfm_250k H1 H2 H3
           remapped_track_buffers).
Defined.

Lemma probed_pair_readable : readable (H := roomy) medium_AB probed_pair 1.
Proof.
  assert (E : ids_of probed_pair = [1; 2]) by compute_eq.
  split.
  - reflexivity.
  - by eexists.
  - vm_compute. split; [reflexivity|discriminate].
  - vm_compute. split; discriminate.
  - rewrite E. repeat constructor; vm_compute; try discriminate; reflexivity.
  - rewrite E. intros a b id Ha Hb Hid.
    rewrite !elem_of_cons, !elem_of_nil in *. lia.
  - rewrite E. split; [left|repeat constructor; lia].
  - rewrite E. left. lia.
  - intros id Hid. change (num_sectors probed_pair) with 2 in Hid.
    assert (id = 1 ∨ id = 2) as [-> | ->] by lia; eexists; split; reflexivity.
Defined.

Lemma whole_track_equals_per_sector_witness :
  readable (H := roomy) medium_AB probed_pair 1
  ∧ on_result (λ '(ok, t, w), (ok, data_at t 0, data_at t 1, w))
      (read_track (H := roomy) (H0 := medium_controller medium_AB true)
         no_options probed_pair O)
    = Ret (true, Some bytes_A, Some bytes_B, 1%nat)
  ∧ on_result (λ '(ok, t, w), (ok, data_at t 0, data_at t 1, w))
      (read_track (H := roomy) (H0 := medium_controller medium_AB false)
         no_options probed_pair O)
    = Ret (true, Some bytes_A, Some bytes_B, 3%nat)
  ∧ ∃ t' w2,
      read_track (H := roomy) (H0 := medium_controller medium_AB true)
        no_options probed_pair O = Ret (true, t', 1%nat)
      ∧ read_track (H := roomy) (H0 := medium_controller medium_AB false)
          no_options probed_pair O = Ret (true, t', w2)
      ∧ sectors t'
        = filled medium_AB probed_pair (Z.to_nat (num_sectors probed_pair))
      ∧ ∀ i s, (i < Z.to_nat (num_sectors probed_pair))%nat →
          sectors probed_pair !! i = Some s →
          ∃ s', sectors t' !! i = Some s' ∧ log_sector s' = log_sector s
                ∧ data s' = match data s with
                            | Some buf => Some buf
                            | None => medium_AB (log_sector s)
                            end.
Proof.
  split; [exact probed_pair_readable|].
  split; [compute_eq|]. split; [compute_eq|].
  exact (whole_track_equals_per_sector (H := roomy) no_options medium_AB
           probed_pair 1 O probed_pair_readable).
Defined.


(** The two probes on a script, and the reference cylinder they leave. *)
Lemma probed_forty : 
  probe_sides (H := roomy) no_options fresh_disk forty_track_tape
  = Ret (probed_disk forty_track_tape, probed_tape forty_track_tape).
Proof. compute_eq. Defined.

Lemma reference_forty :
  reference_cylinder (probed_disk forty_track_tape)
    (side_of (probed_disk forty_track_tape) 0)
    (side_of (probed_disk forty_track_tape) 1)
    (first_sector (side_of (probed_disk forty_track_tape) 0))
    (first_sector (side_of (probed_disk forty_track_tape) 1)).
Proof. split; compute_eq. Defined.

Lemma probe_disk_cylinder_step_witness :
  let disk1 := probed_disk forty_track_tape in
  let side0 := side_of disk1 0 in
  let side1 := side_of disk1 1 in
  probe_sides (H := roomy) no_options fresh_disk forty_track_tape
  = Ret (disk1, probed_tape forty_track_tape)
  ∧ reference_cylinder disk1 side0 side1
      (first_sector side0) (first_sector side1)
  ∧ log_cyl (first_sector side0) * 2 = phys_cyl side0
  ∧ probed side0 || probed side1 = true
  ∧ ∃ d out,
      probe_disk (H := roomy) no_options fresh_disk forty_track_tape
      = Ret (d, out, probed_tape forty_track_tape)
      ∧ cyl_step d = 2 ∧ msg_doublestep ∈ out.
Proof.
  cbv zeta.
  assert (H1 : log_cyl (first_sector (side_of (probed_disk forty_track_tape) 0))
               * 2
               = phys_cyl (side_of (probed_disk forty_track_tape) 0))
    by compute_eq.
  assert (H2 : probed (side_of (probed_disk forty_track_tape) 0)
               || probed (side_of (probed_disk forty_track_tape) 1) = true)
    by compute_eq.
  split; [exact probed_forty|]. split; [exact reference_forty|].
  split; [exact H1|]. split; [exact H2|].
  exact (proj2 (probe_disk_cylinder_step (H := roomy) no_options fresh_disk
                  forty_track_tape _ _ _ _ _ _ probed_forty reference_forty)
           H1 H2).
Defined.

Lemma probed_silent :
  probe_sides (H := roomy) no_options fresh_disk silent_tape
  = Ret (probed_disk silent_tape, probed_tape silent_tape).
Proof. compute_eq. Defined.

Lemma reference_silent :
  reference_cylinder (probed_disk silent_tape)
    (side_of (probed_disk silent_tape) 0)
    (side_of (probed_disk silent_tape) 1)
    (first_sector (side_of (probed_disk silent_tape) 0))
    (first_sector (side_of (probed_disk silent_tape) 1)).
Proof. split; compute_eq. Defined.

Lemma probe_disk_head1_only_witness :
  let disk1 := probed_disk silent_tape in
  let side0 := side_of disk1 0 in
  let side1 := side_of disk1 1 in
  probe_sides (H := roomy) no_options fresh_disk silent_tape
  = Ret (disk1, probed_tape silent_tape)
  ∧ reference_cylinder disk1 side0 side1
      (first_sector side0) (first_sector side1)
  ∧ probed side0 = false ∧ probed side1 = true
  ∧ log_cyl (first_sector side0) = 0xFF
  ∧ on_result (λ '(d, out, _), (num_phys_heads d, cyl_step d, out))
      (probe_disk (H := roomy) no_options fresh_disk silent_tape)
    = Ret (2, 0, [msg_double_sided; msg_mismatch])
  ∧ ((probe_disk (H := roomy) no_options fresh_disk silent_tape
      = Die msg_80T_in_40T ∧ log_cyl (first_sector side0) = 4)
     ∨ (∃ d out,
          probe_disk (H := roomy) no_options fresh_disk silent_tape
          = Ret (d, out, probed_tape silent_tape)
          ∧ num_phys_heads d = num_phys_heads fresh_disk
          ∧ (msg_single_sided ∉ out)
          ∧ (msg_double_sided ∈ out ∨ msg_separate_sides ∈ out)
          ∧ (log_cyl (first_sector side0) = 0xFF →
               cyl_step d = cyl_step fresh_disk
               ∧ (msg_doublestep ∉ out) ∧ msg_mismatch ∈ out))).
Proof.
  cbv zeta.
  assert (H1 : probed (side_of (probed_disk silent_tape) 0) = false)
    by compute_eq.
  assert (H2 : probed (side_of (probed_disk silent_tape) 1) = true)
    by compute_eq.
  split; [exact probed_silent|]. split; [exact reference_silent|].
  split; [exact H1|]. split; [exact H2|].
  split; [compute_eq|]. split; [compute_eq|].
  exact (probe_disk_head1_only (H := roomy) no_options fresh_disk silent_tape
           _ _ _ _ _ _ probed_silent reference_silent H1 H2).
Defined.

(** C10 as the claim words it fails when head 0 answered an id before
    its probe failed: the first sector of head 0 holds that id, not the
    sentinel, and here it makes [probe_disk] set [cyl_step]. *)
Lemma stale_first_sector_sets_cyl_step :
  let disk1 := probed_disk stale_tape in
  probed (side_of disk1 0) = false
  ∧ probed (side_of disk1 1) = true
  ∧ log_cyl (first_sector (side_of disk1 0)) = 1
  ∧ cyl_step fresh_disk = 0
  ∧ on_result (λ '(d, out, _), (num_phys_heads d, cyl_step d, out))
      (probe_disk (H := roomy) no_options fresh_disk stale_tape)
    = Ret (2, 2, [msg_double_sided; msg_doublestep]).
Proof. cbv zeta. repeat split; compute_eq. Qed.

Lemma good_read_reached :
  core_reaches (H := roomy) (W := tape) no_options good_read.
Proof.
  apply (reach_read (H := roomy) no_options (init_track (H := roomy) 0 0)
           good_tape true good_read good_read_tape).
  - apply reach_init.
  - compute_eq.
Defined.

Lemma sector_status_invariant_witness :
  core_reaches (H := roomy) (W := tape) no_options good_read
  ∧ (data <$> sectors good_read !! 0%nat) = Some (Some bytes_A)
  ∧ (status <$> sectors good_read !! 0%nat) = Some SECTOR_MISSING
  ∧ (∀ s, s ∈ sectors good_read →
       status s = SECTOR_MISSING
       ∧ (status s = SECTOR_GOOD → data s ≠ None))
  ∧ (∀ size i ok w sector buf w1,
       array_get (sectors good_read) i = Ret sector → data sector = None →
       fd_read (W := tape) no_options good_read sector size w
       = Ret (false, buf, w1) →
       ∃ t' s', read_sector no_options None size i
                  (good_read, ok, w) = Ret (t', false, w1)
                ∧ sectors t' !! Z.to_nat i = Some s'
                ∧ data s' = None ∧ status s' = SECTOR_MISSING).
Proof.
  split; [exact good_read_reached|].
  split; [compute_eq|]. split; [compute_eq|].
  exact (sector_status_invariant (H := roomy) no_options good_read
           good_read_reached).
Defined.

(** C2 as the claim words it fails on every sector that has been read:
    it holds a buffer and its status is Missing. *)
Lemma read_sector_is_not_good :
  core_reaches (H := roomy) (W := tape) no_options good_read
  ∧ ¬ (∀ s, s ∈ sectors good_read →
         (data s ≠ None ↔ status s = SECTOR_GOOD)).
Proof.
  split; [exact good_read_reached|]. intros Hclaim.
  assert (Hs : ∃ s, sectors good_read !! 0%nat = Some s
                    ∧ data s = Some bytes_A ∧ status s = SECTOR_MISSING).
  { eexists. split; [compute_eq|]. split; reflexivity. }
  destruct Hs as (s & Hs & Hd & Hst).
  apply list_elem_of_lookup_2 in Hs. apply Hclaim in Hs.
  rewrite Hd, Hst in Hs. destruct Hs as [Hs _].
  by specialize (Hs ltac:(discriminate)).
Qed.
